(** * TechSupportBot: the HTTP call facade and the plugin loader

    A shallow embedding of [techsupport_bot/base/data.py] ([DataBot.http_call],
    [DataBot.process_http_response]) and of [basement_bot/plugin.py]
    ([PluginLoader.load_plugins]), with the properties the design document
    states about them.

    Conventions of the embedding.
    - A Python [str] is a [string] of bytes; the case conversions act on the
      ASCII letters, which is what URLs and HTTP method names are made of.
    - A reading of [time.time()] is an exact rational number of seconds.
      The facade only subtracts and compares readings.
    - A [dict] whose iteration order matters ([params], a module's
      [__dict__]) is an association list in insertion order; the two
      dictionaries keyed by host name are [gmap]s.
    - An exception leaves the mutations made before it in place, so every
      operation returns the new state together with its outcome.
    - Logging, the cache and the transport are observed through a list of
      events, in program order. *)

From Stdlib Require Import ZArith QArith Lqa List String Ascii Bool Permutation Sorted.
From stdpp Require Import gmap strings list fin_maps pretty.

Set Warnings "-register-all".

Open Scope string_scope.
Open Scope list_scope.

(** ** Python string methods *)

Module PyStr.

Definition is_upper (c : ascii) : bool :=
  let n := nat_of_ascii c in (65 <=? n)%nat && (n <=? 90)%nat.

Definition is_lower (c : ascii) : bool :=
  let n := nat_of_ascii c in (97 <=? n)%nat && (n <=? 122)%nat.

Definition is_digit (c : ascii) : bool :=
  let n := nat_of_ascii c in (48 <=? n)%nat && (n <=? 57)%nat.

Definition is_alpha (c : ascii) : bool := is_upper c || is_lower c.

Definition lower_char (c : ascii) : ascii :=
  if is_upper c then ascii_of_nat (nat_of_ascii c + 32) else c.

Definition upper_char (c : ascii) : ascii :=
  if is_lower c then ascii_of_nat (nat_of_ascii c - 32) else c.

Fixpoint map_chars (f : ascii -> ascii) (s : string) : string :=
  match s with
  | EmptyString => EmptyString
  | String c s' => String (f c) (map_chars f s')
  end.

(** [s.lower()] and [s.upper()] of a text of ASCII characters. A byte
    outside ASCII is left as it is: there Python maps by Unicode code point
    and by context, which this does not follow. *)
Definition lower (s : string) : string := map_chars lower_char s.
Definition upper (s : string) : string := map_chars upper_char s.

(** [s.replace(c, r)] for a pattern [c] of one character. *)
Fixpoint replace (c : ascii) (r : string) (s : string) : string :=
  match s with
  | EmptyString => EmptyString
  | String a s' =>
      if Ascii.eqb a c then r +:+ replace c r s' else String a (replace c r s')
  end.

(** [c in s]. *)
Fixpoint contains (c : ascii) (s : string) : bool :=
  match s with
  | EmptyString => false
  | String a s' => Ascii.eqb a c || contains c s'
  end.

(** [s.startswith(p)] and [s.endswith(p)]. *)
Definition startswith (p s : string) : bool := String.prefix p s.

Definition endswith (p s : string) : bool :=
  let n := String.length s in
  let m := String.length p in
  (m <=? n)%nat && String.eqb (String.substring (n - m) m s) p.

(** [s[:-3]]. *)
Definition drop_last3 (s : string) : string :=
  String.substring 0 (String.length s - 3) s.

(** [sep.join(l)]. *)
Definition join (sep : string) (l : list string) : string := String.concat sep l.

(** The text after the last ["/"]: [os.path.basename]. *)
Fixpoint basename_from (acc : string) (s : string) : string :=
  match s with
  | EmptyString => acc
  | String a s' =>
      if Ascii.eqb a "/" then basename_from s' s' else basename_from acc s'
  end.

Definition basename (s : string) : string := basename_from s s.

End PyStr.

(** ** The pieces of [urllib.parse] the facade calls *)

Module Url.

Definition hex_digit (n : nat) : ascii :=
  if (n <? 10)%nat then ascii_of_nat (48 + n) else ascii_of_nat (55 + n).

(** ["%{:02X}".format(byte)]. *)
Definition percent (c : ascii) : string :=
  let n := nat_of_ascii c in
  String "%" (String (hex_digit (n / 16)) (String (hex_digit (n mod 16)) EmptyString)).

(** Membership in [_ALWAYS_SAFE]: letters, digits and [_.-~]. *)
Definition always_safe (c : ascii) : bool :=
  PyStr.is_alpha c || PyStr.is_digit c ||
  Ascii.eqb c "_" || Ascii.eqb c "." || Ascii.eqb c "-" || Ascii.eqb c "~".

(** [quote(s, safe)]: the bytes outside [_ALWAYS_SAFE] and [safe] are
    percent-encoded. *)
Fixpoint quote (safe : string) (s : string) : string :=
  match s with
  | EmptyString => EmptyString
  | String c s' =>
      (if always_safe c || PyStr.contains c safe
       then String c EmptyString else percent c) +:+ quote safe s'
  end.

(** [quote_plus(s)], with its default [safe='']. *)
Definition quote_plus (s : string) : string :=
  if negb (PyStr.contains " " s) then quote "" s
  else PyStr.replace " " "+" (quote " " s).

(** [urlencode(query)] for a mapping, [doseq] false: the items in the
    mapping's iteration order, each as [key=value], joined by ["&"]. *)
Definition urlencode (query : list (string * string)) : string :=
  PyStr.join "&" (map (fun kv => quote_plus kv.1 +:+ "=" +:+ quote_plus kv.2) query).

Definition scheme_char (c : ascii) : bool :=
  PyStr.is_alpha c || PyStr.is_digit c ||
  Ascii.eqb c "+" || Ascii.eqb c "-" || Ascii.eqb c ".".

Fixpoint all_chars (p : ascii -> bool) (s : string) : bool :=
  match s with
  | EmptyString => true
  | String c s' => p c && all_chars p s'
  end.

(** Splits [s] at its first [":"]. *)
Fixpoint split_colon (s : string) : option (string * string) :=
  match s with
  | EmptyString => None
  | String c s' =>
      if Ascii.eqb c ":" then Some (EmptyString, s')
      else match split_colon s' with
           | Some (a, b) => Some (String c a, b)
           | None => None
           end
  end.

(** The remainder of [url] once a leading [scheme:] is taken off. *)
Definition strip_scheme (url : string) : string :=
  match split_colon url with
  | Some (String c rest as sch, after) =>
      if PyStr.is_alpha c && all_chars scheme_char sch then after else url
  | _ => url
  end.

(** The text up to the first of ["/"], ["?"] and ["#"]. *)
Fixpoint authority (s : string) : string :=
  match s with
  | EmptyString => EmptyString
  | String c s' =>
      if Ascii.eqb c "/" || Ascii.eqb c "?" || Ascii.eqb c "#" then EmptyString
      else String c (authority s')
  end.

(** [urlparse(url).netloc]: after the scheme, the authority that follows
    ["//"], and the empty string when there is none. The stripping of
    leading control characters and the bracket check of IPv6 literals are
    left out. *)
Definition netloc (url : string) : string :=
  match strip_scheme url with
  | String "/" (String "/" rest) => authority rest
  | _ => EmptyString
  end.

End Url.

(** ** [collections.deque] with a [maxlen] *)

Record deque := Deque { maxlen : nat; items : list Q }.

(** [deque([], maxlen=n)]. *)
Definition deque_new (n : nat) : deque := Deque n [].

(** [d.append(x)]: the item goes to the right end, and a deque that has
    grown past its [maxlen] loses its leftmost item. *)
Definition deque_append (x : Q) (d : deque) : deque :=
  let l := items d ++ [x] in
  Deque (maxlen d) (if (maxlen d <? length l)%nat then tl l else l).

(** ** Exceptions, responses and Python values *)

Inductive exn :=
| HTTPRateLimit (time_to_wait : Q)
| IndexError
| Propagated (name : string).

(** JSON documents and what [munchify] makes of them. A [Munch] is a
    [dict] with attribute access; it has a constructor of its own. *)
Inductive pyval :=
| PNone
| PBool (b : bool)
| PInt (n : Z)
| PFloat (q : Q)
| PStr (s : string)
| PList (l : list pyval)
| PDict (d : list (string * pyval))
| PMunch (d : list (string * pyval)).

(** What [await response_object.json()] does: a parsed document, one of
    the two exceptions the facade catches, or another exception. *)
Inductive json_outcome :=
| JsonValue (v : pyval)
| JSONDecodeError
| ClientResponseError
| JsonRaises (name : string).

(** An [aiohttp.ClientResponse], as far as the facade looks into it. The
    class defines neither [__bool__] nor [__len__]: every response object is
    truthy. *)
Record ClientResponse := {
  status : Z;
  text : string;
  json : json_outcome
}.

Inductive result :=
| Return (v : pyval)
| Raise (e : exn).

Inductive LogLevel := DEBUG | INFO | WARNING | ERROR.

(** What a call does to its collaborators, in program order. *)
Inductive event :=
| CacheGet (key : string)
| CacheSet (key : string) (value : ClientResponse)
| Transport (method url : string)
| Log (level : LogLevel) (message : string).

(** [munch.munchify]. *)
Fixpoint munchify (x : pyval) : pyval :=
  match x with
  | PDict d => PMunch (map (fun kv => let (k, v) := kv : string * pyval in (k, munchify v)) d)
  | PMunch d => PMunch (map (fun kv => let (k, v) := kv : string * pyval in (k, munchify v)) d)
  | PList l => PList (map munchify l)
  | _ => x
  end.

(** [d[k] = v] on the items of a dict. *)
Fixpoint dict_set {A : Type} (k : string) (v : A) (d : list (string * A)) : list (string * A) :=
  match d with
  | [] => [(k, v)]
  | (k', v') :: d' =>
      if String.eqb k' k then (k, v) :: d' else (k', v') :: dict_set k v d'
  end.

Fixpoint dict_get {A : Type} (k : string) (d : list (string * A)) : option A :=
  match d with
  | [] => None
  | (k', v') :: d' => if String.eqb k' k then Some v' else dict_get k d'
  end.

Definition dict_del {A : Type} (k : string) (d : list (string * A)) : list (string * A) :=
  List.filter (fun kv => negb (String.eqb kv.1 k)) d.

(** [response[k] = v]: mappings take the item, anything else raises
    [TypeError]. *)
Definition setitem (k : string) (v : pyval) (response : pyval) : option pyval :=
  match response with
  | PDict d => Some (PDict (dict_set k v d))
  | PMunch d => Some (PMunch (dict_set k v d))
  | _ => None
  end.

(** ** The response cache, [expiringdict.ExpiringDict] *)

Module Expiring.

(** Modelled from the spec: the class [ExpiringDict] of the [expiringdict]
    package, which is not part of the repository. A bounded-size,
    bounded-age store from keys to responses in insertion order; every
    entry carries the clock reading of its insertion. *)
Record ExpiringDict := {
  max_len : nat;
  max_age : Q;
  entries : list (string * (ClientResponse * Q))
}.

(** Modelled from the spec: [ExpiringDict(max_len, max_age_seconds)], an
    empty store. *)
Definition create (len : nat) (age : Q) : ExpiringDict :=
  {| max_len := len; max_age := age; entries := [] |}.

Definition with_entries (d : ExpiringDict) (l : list (string * (ClientResponse * Q))) : ExpiringDict :=
  {| max_len := max_len d; max_age := max_age d; entries := l |}.

(** The age test of an entry inserted at [t], read at [now]. *)
Definition fresh (d : ExpiringDict) (now t : Q) : bool :=
  negb (Qle_bool (max_age d) (now - t)).

(** Modelled from the spec: [d.get(key)]. An entry is returned while its
    age is below the age limit; one that has reached the limit is evicted
    by the access and reported absent. *)
Definition get (d : ExpiringDict) (key : string) (now : Q) : ExpiringDict * option ClientResponse :=
  match dict_get key (entries d) with
  | Some (v, t) =>
      if fresh d now t then (d, Some v)
      else (with_entries d (dict_del key (entries d)), None)
  | None => (d, None)
  end.

(** Modelled from the spec: [d[key] = value]. A store that is full first
    makes room, by dropping the entry of [key] when it has a live one and
    its oldest entry otherwise; the value is then stored with the current
    clock reading. *)
Definition set (d : ExpiringDict) (key : string) (value : ClientResponse) (now : Q) : ExpiringDict :=
  let d1 :=
    if (length (entries d) =? max_len d)%nat then
      match get d key now with
      | (d', Some _) => with_entries d' (dict_del key (entries d'))
      | (d', None) => with_entries d' (tl (entries d'))
      end
    else d in
  with_entries d1 (dict_set key (value, now) (entries d1)).

End Expiring.

(** ** The bot *)

Record file_config := {
  http_cache_length : nat;
  http_cache_seconds : Q;
  (** [api.api_url.dumpdbg] and [api.api_url.linx], when configured. *)
  dumpdbg : option string;
  linx : option string
}.

Record DataBot := {
  http_cache : Expiring.ExpiringDict;
  url_rate_limit_history : gmap string deque;
  rate_limits : gmap string (nat * Q)
}.

(** The literal of [__init__]: host, calls allowed, seconds. *)
Definition rate_limit_table : list (string * (nat * Q)) :=
  [ ("api.urbandictionary.com", (2%nat, 60%Q));
    ("api.openai.com", (3%nat, 60%Q));
    ("www.googleapis.com", (5%nat, 60%Q));
    ("ipinfo.io", (1%nat, 30%Q));
    ("api.open-notify.org", (1%nat, 60%Q));
    ("geocode.xyz", (1%nat, 60%Q));
    ("v2.jokeapi.dev", (10%nat, 60%Q));
    ("api.kanye.rest", (1%nat, 60%Q));
    ("newsapi.org", (1%nat, 30%Q));
    ("accounts.spotify.com", (3%nat, 60%Q));
    ("api.spotify.com", (3%nat, 60%Q));
    ("api.mymemory.translated.net", (1%nat, 60%Q));
    ("api.openweathermap.org", (3%nat, 60%Q));
    ("api.wolframalpha.com", (3%nat, 60%Q));
    ("xkcd.com", (5%nat, 60%Q));
    ("api.github.com", (3%nat, 60%Q));
    ("api.giphy.com", (3%nat, 60%Q));
    ("strawpoll.com", (3%nat, 60%Q));
    ("api.thecatapi.com", (10%nat, 60%Q)) ].

(** Python's dict literal: later items overwrite earlier ones. *)
Definition dict_literal (l : list (string * (nat * Q))) : gmap string (nat * Q) :=
  fold_left (fun m kv => <[kv.1 := kv.2]> m) l ∅.

(** [DataBot.__init__]. *)
Definition DataBot_init (cfg : file_config) : DataBot :=
  let limits := dict_literal rate_limit_table in
  let limits :=
    match dumpdbg cfg with
    | Some u => <[Url.netloc u := (1%nat, 60%Q)]> limits
    | None => limits
    end in
  let limits :=
    match linx cfg with
    | Some u => <[Url.netloc u := (20%nat, 60%Q)]> limits
    | None => limits
    end in
  {| http_cache := Expiring.create (http_cache_length cfg) (http_cache_seconds cfg);
     url_rate_limit_history := ∅;
     rate_limits := limits |}.

Definition set_history (bot : DataBot) (h : gmap string deque) : DataBot :=
  {| http_cache := http_cache bot;
     url_rate_limit_history := h;
     rate_limits := rate_limits bot |}.

Definition set_cache (bot : DataBot) (c : Expiring.ExpiringDict) : DataBot :=
  {| http_cache := c;
     url_rate_limit_history := url_rate_limit_history bot;
     rate_limits := rate_limits bot |}.

(** ** [DataBot.http_call], the rate-limit stage *)

(** The [while] loop of the stage, on the items of the deque: each turn is
    a [popleft()], taken as long as the deque has a leftmost timestamp and
    [now - history[0] >= time_window]. *)
Fixpoint drop_expired (now time_window : Q) (l : list Q) : list Q :=
  match l with
  | [] => []
  | t :: l' =>
      if Qle_bool time_window (now - t) then drop_expired now time_window l' else l
  end.

(** [max(a, b)] of two numbers: the first argument unless the second is
    strictly greater. *)
Definition py_max (a b : Q) : Q := if Qle_bool b a then a else b.

(** Lines 130 to 166: the stage mutates [url_rate_limit_history] and
    either raises or falls through ([None]). [url] is the URL as the
    caller passed it and [now] the reading of [time.time()]. *)
Definition rate_limit_stage (bot : DataBot) (url : string) (now : Q) : DataBot * option exn :=
  let ignore_rate_limit := false in
  let root_url := Url.netloc url in
  match rate_limits bot !! root_url with
  | None => (bot, None)
  | Some (executions_allowed, time_window) =>
      let history := url_rate_limit_history bot in
      let history :=
        match history !! root_url with
        | Some _ => history
        | None => <[root_url := deque_new executions_allowed]> history
        end in
      let d := default (deque_new executions_allowed) (history !! root_url) in
      let d := Deque (maxlen d) (drop_expired now time_window (items d)) in
      let history := <[root_url := d]> history in
      if negb ignore_rate_limit && (executions_allowed <=? length (items d))%nat then
        match items d with
        | [] => (set_history bot history, Some IndexError)
        | oldest :: _ =>
            let time_to_wait := (time_window - (now - oldest))%Q in
            let time_to_wait := py_max time_to_wait 0 in
            (set_history bot history, Some (HTTPRateLimit time_to_wait))
        end
      else
        (set_history bot (<[root_url := deque_append now d]> history), None)
  end.

(** ** [DataBot.process_http_response] *)

(** [now_set] is the clock reading taken by the cache when it stores. *)
Definition process_http_response (bot : DataBot) (response_object : ClientResponse)
    (method cache_key : string) (get_raw_response : bool) (log_message : string)
    (now_set : Q) : DataBot * list event * result :=
  let '(bot, ev) :=
    if String.eqb method "get"
    then (set_cache bot (Expiring.set (http_cache bot) cache_key response_object now_set),
          [CacheSet cache_key response_object])
    else (bot, []) in
  let ev := ev ++ [Log INFO log_message] in
  if get_raw_response then
    (bot, ev,
     Return (PDict [("status", PInt (status response_object));
                    ("text", PStr (text response_object))]))
  else
    let failed :=
      Log ERROR (PyStr.upper method +:+ " request to URL: " +:+ cache_key +:+ " failed") in
    match
      match json response_object with
      | JsonValue v => inl (v, ev)
      | JSONDecodeError | ClientResponseError => inl (PDict [], ev ++ [failed])
      | JsonRaises name => inr name
      end
    with
    | inr name => (bot, ev, Raise (Propagated name))
    | inl (response_json, ev) =>
        let response := munchify response_json in
        match setitem "status_code" (PInt (status response_object)) response with
        | Some response => (bot, ev, Return response)
        | None =>
            (bot, ev ++ [Log WARNING "Failed to add status_code to API response"],
             Return response)
        end
    end.

(** ** [DataBot.http_call] *)

(** The arguments of a call. [params] is the [params] keyword, a mapping in
    its iteration order with keys and values as [str()] gives them; the
    empty list stands for a missing or empty mapping, which the code does
    not tell apart. *)
Record request := {
  method : string;
  url : string;
  params : list (string * string);
  use_cache : bool;
  get_raw_response : bool
}.

(** What the transport does with the request: a response, or an exception
    that the facade lets through. *)
Inductive transport_outcome :=
| Responds (r : ClientResponse)
| Fails (name : string).

(** What the world hands to one call: the clock readings of the rate-limit
    stage, of the cache lookup and of the cache store, and the transport's
    answer. *)
Record world := {
  now : Q;
  now_get : Q;
  now_set : Q;
  transport : transport_outcome
}.

Definition http_call (bot : DataBot) (r : request) (w : world) : DataBot * list event * result :=
  match rate_limit_stage bot (url r) (now w) with
  | (bot, Some e) => (bot, [], Raise e)
  | (bot, None) =>
      let url := PyStr.replace "+" "%2b" (PyStr.replace " " "%20" (url r)) in
      let method := PyStr.lower (method r) in
      let cache_key := PyStr.lower url in
      let cache_key :=
        match params r with
        | [] => cache_key
        | _ :: _ => cache_key +:+ "?" +:+ Url.urlencode (params r)
        end in
      let '(bot, ev, cached_response) :=
        if use_cache r && String.eqb method "get"
        then let (c, v) := Expiring.get (http_cache bot) cache_key (now_get w) in
             (set_cache bot c, [CacheGet cache_key], v)
        else (bot, [], None) in
      match cached_response with
      | Some response_object =>
          let log_message := "Retrieving cached HTTP GET response (" +:+ cache_key +:+ ")" in
          let '(bot, ev', res) :=
            process_http_response bot response_object method cache_key
              (get_raw_response r) log_message (now_set w) in
          (bot, ev ++ ev', res)
      | None =>
          let ev := ev ++ [Transport (PyStr.lower method) url] in
          match transport w with
          | Fails name => (bot, ev, Raise (Propagated name))
          | Responds response_object =>
              let log_message :=
                "Making HTTP " +:+ PyStr.upper method +:+ " request to URL: " +:+ cache_key in
              let '(bot, ev', res) :=
                process_http_response bot response_object method cache_key
                  (get_raw_response r) log_message (now_set w) in
              (bot, ev ++ ev', res)
          end
      end
  end.

(** A sequence of calls, one after the other, with what each did. *)
Fixpoint run (bot : DataBot) (calls : list (request * world)) : DataBot * list (list event * result) :=
  match calls with
  | [] => (bot, [])
  | (r, w) :: rest =>
      let '(bot', ev, res) := http_call bot r w in
      let (bot'', outs) := run bot' rest in
      (bot'', (ev, res) :: outs)
  end.

(** ** Vocabulary of the statements *)

(** The URL handed to the transport: spaces and plus signs escaped. *)
Definition normalized_url (u : string) : string :=
  PyStr.replace "+" "%2b" (PyStr.replace " " "%20" u).

(** The cache key of a request, as [http_call] computes it. *)
Definition cache_key_of (r : request) : string :=
  let base := PyStr.lower (normalized_url (url r)) in
  match params r with
  | [] => base
  | _ :: _ => base +:+ "?" +:+ Url.urlencode (params r)
  end.

(** Insertion of an item into items sorted by key. *)
Fixpoint insert_by_key (kv : string * string) (l : list (string * string)) : list (string * string) :=
  match l with
  | [] => [kv]
  | kv' :: l' =>
      if String.leb kv.1 kv'.1 then kv :: l else kv' :: insert_by_key kv l'
  end.

(** [sorted(params.items())]. *)
Definition sorted_items (l : list (string * string)) : list (string * string) :=
  fold_right insert_by_key [] l.

(** The cache key in the design document's words: the lower-cased URL with
    the sorted, URL-encoded query parameters appended. *)
Definition spec_cache_key (r : request) : string :=
  let base := PyStr.lower (normalized_url (url r)) in
  match params r with
  | [] => base
  | _ :: _ => base +:+ "?" +:+ Url.urlencode (sorted_items (params r))
  end.

Definition key_leb (a b : string * string) : Prop := String.leb a.1 b.1 = true.

(** The method of the request is GET, in any letter case. *)
Definition is_get (r : request) : bool := String.eqb (PyStr.lower (method r)) "get".

(** Successive clock readings do not decrease: [t] is the latest reading
    before the call. *)
Definition clock_ok (t : Q) (w : world) : bool :=
  Qle_bool t (now w) && Qle_bool (now w) (now_get w) && Qle_bool (now_get w) (now_set w).

Fixpoint monotone (t : Q) (calls : list (request * world)) : bool :=
  match calls with
  | [] => true
  | (_, w) :: rest => clock_ok t w && monotone (now_set w) rest
  end.

(** The latest clock reading once [calls] have run. *)
Fixpoint last_reading (t : Q) (calls : list (request * world)) : Q :=
  match calls with
  | [] => t
  | (_, w) :: rest => last_reading (now_set w) rest
  end.

(** The states of the bot: what a sequence of calls under a clock that does
    not run backwards makes of a freshly constructed bot. [t] is the
    latest clock reading. *)
Definition reachable (cfg : file_config) (t : Q) (bot : DataBot) : Prop :=
  exists t0 calls,
    monotone t0 calls = true /\
    (run (DataBot_init cfg) calls).1 = bot /\
    last_reading t0 calls = t.

(** The timestamps a host has in the history, oldest first. *)
Definition timestamps (bot : DataBot) (host : string) : list Q :=
  match url_rate_limit_history bot !! host with
  | Some d => items d
  | None => []
  end.

(** A timestamp [x] is inside the window that ends at [t]. *)
Definition recent (t time_window x : Q) : bool := negb (Qle_bool time_window (t - x)).

(** The call went past the rate-limit stage. *)
Definition admitted (res : result) : bool :=
  match res with
  | Raise (HTTPRateLimit _) | Raise IndexError => false
  | _ => true
  end.

(** The clock readings of the admitted calls to [host], in call order. *)
Fixpoint admitted_times (host : string) (calls : list (request * world))
    (outs : list (list event * result)) : list Q :=
  match calls, outs with
  | (r, w) :: calls', (_, res) :: outs' =>
      if String.eqb (Url.netloc (url r)) host && admitted res
      then now w :: admitted_times host calls' outs'
      else admitted_times host calls' outs'
  | _, _ => []
  end.

Definition is_transport (e : event) : bool :=
  match e with Transport _ _ => true | _ => false end.

Definition is_cache_event (e : event) : bool :=
  match e with CacheGet _ | CacheSet _ _ => true | _ => false end.

(** The key of a cache event. *)
Definition cache_event_key (e : event) : option string :=
  match e with
  | CacheGet k | CacheSet k _ => Some k
  | _ => None
  end.

(** The invariant of the rate limiter's state at clock reading [t]. *)
Definition deque_ok (quota : nat) (t : Q) (d : deque) : Prop :=
  maxlen d = quota /\
  (length (items d) <= quota)%nat /\
  StronglySorted Qle (items d) /\
  Forall (fun x => (x <= t)%Q) (items d).

Definition bot_ok (cfg : file_config) (t : Q) (bot : DataBot) : Prop :=
  rate_limits bot = rate_limits (DataBot_init cfg) /\
  forall h d, url_rate_limit_history bot !! h = Some d ->
    exists quota time_window,
      rate_limits bot !! h = Some (quota, time_window) /\ deque_ok quota t d.

(** ** [PluginLoader.load_plugins] *)

Module Plugin.

(** What a name of a module's [__dict__] is bound to. *)
Inductive kind := KModule | KClass | KFunction | KCommand | KData.

Record pyobj := { origin : string; obj_kind : kind }.

(** [callable(obj)]. *)
Definition callable (o : pyobj) : bool :=
  match obj_kind o with
  | KClass | KFunction | KCommand => true
  | KModule | KData => false
  end.

(** The directory of the loader's own file and the entries of its
    [plugins] directory, each with what [isfile] says of it. *)
Record filesystem := {
  here : string;
  plugins_dir : list (string * bool)
}.

(** [glob.glob(f"{here}/plugins/*.py")]: the paths of the entries whose
    name matches [*.py]; the pattern does not match hidden names. *)
Definition glob_py (fs : filesystem) : list (string * bool) :=
  map (fun e => (here fs +:+ "/plugins/" +:+ e.1, e.2))
      (List.filter (fun e => PyStr.endswith ".py" e.1 && negb (PyStr.startswith "." e.1))
              (plugins_dir fs)).

(** The bot: the commands registered so far, and the check that the chat
    SDK's [add_command] makes of its argument, which lies outside the
    repository. *)
Record Bot := {
  accepts : pyobj -> bool;
  commands : list pyobj
}.

(** [bot.add_command(func)]: registers, or raises [TypeError]. *)
Definition add_command (bot : Bot) (func : pyobj) : Bot * option exn :=
  if accepts bot func
  then ({| accepts := accepts bot; commands := commands bot ++ [func] |}, None)
  else (bot, Some (Propagated "TypeError")).

(** The test of the inner loop. *)
Definition name_ok (name : string) : bool :=
  negb (PyStr.startswith "__" name) && negb (String.eqb name "commands").

(** The inner loop, over the items of a module's [__dict__]. *)
Fixpoint register_items (bot : Bot) (dict : list (string * pyobj)) : Bot * option exn :=
  match dict with
  | [] => (bot, None)
  | (name, func) :: rest =>
      if name_ok name then
        match add_command bot func with
        | (bot', None) => register_items bot' rest
        | (bot', Some e) => (bot', Some e)
        end
      else register_items bot rest
  end.

(** The outer loop; [import_module] is [None] where the import raises. *)
Fixpoint load_modules (import_module : string -> option (list (string * pyobj)))
    (bot : Bot) (module_names : list string) : Bot * option exn :=
  match module_names with
  | [] => (bot, None)
  | module :: rest =>
      match import_module module with
      | None => (bot, Some (Propagated "ImportError"))
      | Some imported =>
          match register_items bot imported with
          | (bot', None) => load_modules import_module bot' rest
          | (bot', Some e) => (bot', Some e)
          end
      end
  end.

Definition module_names (files : list (string * bool)) : list string :=
  map (fun f => "plugins." +:+ PyStr.drop_last3 (PyStr.basename f.1))
      (List.filter (fun f => f.2 && negb (PyStr.endswith "__init__.py" f.1)) files).

Definition load_plugins (fs : filesystem)
    (import_module : string -> option (list (string * pyobj))) (bot : Bot) : Bot * option exn :=
  let files := glob_py fs in
  load_modules import_module bot (module_names files).

(** The bindings that pass the name test, module after module. *)
Definition qualifying (import_module : string -> option (list (string * pyobj)))
    (names : list string) : list pyobj :=
  flat_map (fun m => map snd (List.filter (fun b => name_ok b.1) (default [] (import_module m)))) names.

(** The commands in the design document's words: the top-level callables
    that pass the name test. *)
Definition spec_commands (import_module : string -> option (list (string * pyobj)))
    (names : list string) : list pyobj :=
  List.filter callable (qualifying import_module names).

(** A bot that takes whatever it is given, and one that takes commands only. *)
Definition lenient_bot : Bot := {| accepts := fun _ => true; commands := [] |}.
Definition strict_bot : Bot :=
  {| accepts := fun o => match obj_kind o with KCommand => true | _ => false end;
     commands := [] |}.

(** The top-level names of [plugins/giphy.py] once imported. *)
Definition giphy_dict : list (string * pyobj) :=
  [ ("__name__", {| origin := "plugins.giphy"; obj_kind := KData |});
    ("__doc__", {| origin := "None"; obj_kind := KData |});
    ("random", {| origin := "random"; obj_kind := KModule |});
    ("HttpPlugin", {| origin := "cogs.HttpPlugin"; obj_kind := KClass |});
    ("with_typing", {| origin := "decorate.with_typing"; obj_kind := KFunction |});
    ("commands", {| origin := "discord.ext.commands"; obj_kind := KModule |});
    ("setup", {| origin := "plugins.giphy.setup"; obj_kind := KFunction |});
    ("Giphy", {| origin := "plugins.giphy.Giphy"; obj_kind := KClass |}) ].

Definition example_fs : filesystem :=
  {| here := "/srv/basement_bot";
     plugins_dir := [("__init__.py", true); ("giphy.py", true); ("README.md", true);
                     ("old.py", false)] |}.

Definition example_import (module : string) : option (list (string * pyobj)) :=
  if String.eqb module "plugins.giphy" then Some giphy_dict else None.

End Plugin.

(** ** Sample configuration, requests and responses *)

Definition sample_config : file_config :=
  {| http_cache_length := 10; http_cache_seconds := 600; dumpdbg := None; linx := None |}.

Definition sample_response : ClientResponse :=
  {| status := 200;
     text := "{}";
     json := JsonValue (PDict []) |}.

Definition broken_response : ClientResponse :=
  {| status := 502; text := "<html>Bad Gateway</html>"; json := JSONDecodeError |}.

Definition giphy_request : request :=
  {| method := "get";
     url := "http://api.giphy.com/v1/gifs/search";
     params := [("q", "cat"); ("limit", "5")];
     use_cache := true;
     get_raw_response := false |}.

Definition ipinfo_request : request :=
  {| method := "GET";
     url := "https://ipinfo.io/8.8.8.8/json";
     params := [];
     use_cache := true;
     get_raw_response := false |}.

Definition example_post : request :=
  {| method := "post";
     url := "https://example.org/paste";
     params := [];
     use_cache := true;
     get_raw_response := true |}.

(** A world in which every clock reading of the call is [t]. *)
Definition world_at (t : Q) (resp : ClientResponse) : world :=
  {| now := t; now_get := t; now_set := t; transport := Responds resp |}.

(** Every recorded history belongs to a host with a policy, holds no more
    timestamps than the policy's quota, and is in non-decreasing order. *)
Definition history_within_quota (bot : DataBot) : Prop :=
  forall h d, url_rate_limit_history bot !! h = Some d ->
    exists quota time_window,
      rate_limits bot !! h = Some (quota, time_window) /\
      (length (items d) <= quota)%nat /\
      StronglySorted Qle (items d).

(** A bot that has answered one call to each sample host at time 0. *)
Definition sample_calls : list (request * world) :=
  [ (giphy_request, world_at 0 sample_response);
    (ipinfo_request, world_at 0 sample_response) ].

Definition sample_bot : DataBot := (run (DataBot_init sample_config) sample_calls).1.

(** The call gets past the rate-limit stage. *)
Definition passes (bot : DataBot) (r : request) (w : world) : bool :=
  match (rate_limit_stage bot (url r) (now w)).2 with
  | None => true
  | Some _ => false
  end.

(** The call looks into the cache: it is a GET that asked for it. *)
Definition looks_up (r : request) : bool := use_cache r && is_get r.

(** What the lookup of the call finds in the cache. *)
Definition cache_hit (bot : DataBot) (r : request) (w : world) : option ClientResponse :=
  if looks_up r
  then (Expiring.get (http_cache bot) (cache_key_of r) (now_get w)).2
  else None.

(** The response object that the call hands to [process_http_response]:
    the cached one on a hit, the transport's on a miss, none when the call
    is refused or the transport fails. *)
Definition processed_response (bot : DataBot) (r : request) (w : world) : option ClientResponse :=
  if passes bot r w then
    match cache_hit bot r w, transport w with
    | Some resp, _ => Some resp
    | None, Responds resp => Some resp
    | None, Fails _ => None
    end
  else None.

(** The keys of the cache. *)
Definition cache_keys (bot : DataBot) : list string :=
  map fst (Expiring.entries (http_cache bot)).

(** The entry of a key in the cache: the response and the clock reading
    of its insertion. *)
Definition cache_entry (bot : DataBot) (key : string) : option (ClientResponse * Q) :=
  dict_get key (Expiring.entries (http_cache bot)).

(** The transport calls among the events. *)
Definition transport_calls (ev : list event) : list event := List.filter is_transport ev.

(** [giphy_request] with the items of [params] in the other order. *)
Definition giphy_request_swapped : request :=
  {| method := "get";
     url := "http://api.giphy.com/v1/gifs/search";
     params := [("limit", "5"); ("q", "cat")];
     use_cache := true;
     get_raw_response := false |}.

(** The event is a log line. *)
Definition is_log (e : event) : Prop := exists lvl s, e = Log lvl s.

(** A configuration whose cache forgets sooner than the shortest window. *)
Definition short_cache_config : file_config :=
  {| http_cache_length := 10; http_cache_seconds := 10; dumpdbg := None; linx := None |}.

(** [sample_bot] after a second call to the giphy host at time 500, which
    the cache answers. *)
Definition refreshed_bot : DataBot :=
  (http_call sample_bot giphy_request (world_at 500 sample_response)).1.1.

(** The states of the bot under any clock: what some sequence of calls
    makes of a freshly constructed bot. *)
Definition constructed (cfg : file_config) (bot : DataBot) : Prop :=
  exists calls, (run (DataBot_init cfg) calls).1 = bot.

(** The part of the invariant that does not depend on the clock. *)
Definition deque_sized (quota : nat) (d : deque) : Prop :=
  maxlen d = quota /\ (length (items d) <= quota)%nat.

Definition bot_sized (cfg : file_config) (bot : DataBot) : Prop :=
  rate_limits bot = rate_limits (DataBot_init cfg) /\
  forall h d, url_rate_limit_history bot !! h = Some d ->
    exists quota time_window,
      rate_limits bot !! h = Some (quota, time_window) /\ deque_sized quota d.

(** ** [DataBot.generate_db_url] *)

Module Db.

(** What reading an attribute of the configuration gives: the value, or
    the [AttributeError] that the configuration object raises, with the text
    that [str(exception)] gives. *)
Inductive attribute (A : Type) :=
| Value (a : A)
| AttributeError (text : string).

Arguments Value {A} a.
Arguments AttributeError {A} text.

(** [file_config.database.postgres]. A [name] that is configured as [None]
    is the empty text here: the code only asks whether it is truthy. *)
Record postgres := {
  user : attribute string;
  password : attribute string;
  name : attribute string;
  host : attribute string;
  port : attribute string
}.

Inductive console := Warning (message : string) | Debug (message : string).

(** [database] is what [getattr(self.file_config.database, db_type)] gives.
    The result is the URL, or [None], and what was written to the
    console. *)
Definition generate_db_url (database : attribute postgres) : option string * list console :=
  let db_type := "postgres" in
  let config :=
    match database with
    | AttributeError exception => inr exception
    | Value config_child =>
        match user config_child with
        | AttributeError exception => inr exception
        | Value user =>
        match password config_child with
        | AttributeError exception => inr exception
        | Value password =>
        match name config_child with
        | AttributeError exception => inr exception
        | Value name =>
        match host config_child with
        | AttributeError exception => inr exception
        | Value host =>
        match port config_child with
        | AttributeError exception => inr exception
        | Value port => inl (user, password, name, host, port)
        end end end end end
    end in
  match config with
  | inr exception =>
      (None,
       [Warning ("Could not generate DB URL for " +:+ PyStr.upper db_type +:+ ": " +:+
                 exception)])
  | inl (user, password, name, host, port) =>
      let url := db_type +:+ "://" +:+ user +:+ ":" +:+ password +:+ "@" +:+ host +:+ ":" +:+ port in
      let url_filtered :=
        db_type +:+ "://" +:+ user +:+ ":" +:+ "********" +:+ "@" +:+ host +:+ ":" +:+ port in
      let url := if String.eqb name "" then url else url +:+ "/" +:+ name in
      (Some url, [Debug ("Generated DB URL: " +:+ url_filtered)])
  end.

Definition with_password (c : postgres) (p : string) : postgres :=
  {| user := user c; password := Value p; name := name c; host := host c; port := port c |}.

(** The text of the first [AttributeError] among attribute reads. *)
Fixpoint first_raised (reads : list (attribute string)) : option string :=
  match reads with
  | [] => None
  | Value _ :: rest => first_raised rest
  | AttributeError text :: _ => Some text
  end.

(** The text of the first [AttributeError] that the reads of the function
    meet, in the order in which it reads. *)
Definition first_error (database : attribute postgres) : option string :=
  match database with
  | AttributeError text => Some text
  | Value c => first_raised [user c; password c; name c; host c; port c]
  end.

Definition sample : postgres :=
  {| user := Value "bot"; password := Value "hunter2"; name := Value "techsupport";
     host := Value "db.internal"; port := Value "5432" |}.

(** [sample] read from a configuration object that has no [host]; the text
    is the one that a [Munch] raises. *)
Definition sample_without_host : postgres :=
  {| user := Value "bot"; password := Value "hunter2"; name := Value "techsupport";
     host := AttributeError "host"; port := Value "5432" |}.

End Db.

(** ** [Giphy.parse_url] *)

Module Giphy.

(** [s.find(sub)] from position [i] on: the lowest index at which [sub]
    occurs, and [-1] when it does not occur. *)
Fixpoint find_from (sub s : string) (i : Z) : Z :=
  if String.prefix sub s then i
  else match s with
       | EmptyString => (-1)%Z
       | String _ s' => find_from sub s' (i + 1)%Z
       end.

Definition find (sub s : string) : Z := find_from sub s 0.

(** [s[:i]], with Python's reading of a negative [i]. *)
Definition slice_to (s : string) (i : Z) : string :=
  let n := Z.of_nat (String.length s) in
  let stop := if (i <? 0)%Z then Z.max 0 (n + i) else Z.min i n in
  String.substring 0 (Z.to_nat stop) s.

Definition parse_url (url : string) : string :=
  let index := find "?cid=" url in
  slice_to url index.

End Giphy.

(** ** The notes extension, [commands/who.py] *)

Module Who.

(** A role, a member and a guild of the chat platform, as far as the
    handlers look into them. Roles compare by their id. *)
Record Role := { role_id : Z; role_name : string }.

Record Member := {
  member_id : Z;
  member_name : string;
  member_roles : list Role
}.

Record Guild := { guild_snowflake : Z; guild_roles : list Role }.

(** A row of the [UserNote] table; [pk] is its primary key and [updated]
    the time of its creation. *)
Record UserNote := {
  pk : nat;
  user_id : string;
  guild_id : string;
  author_id : string;
  body : string;
  updated : Q
}.

(** The options of the extension in a guild's configuration, and whether
    the extension is enabled there. *)
Record config := {
  enabled : bool;
  note_role : option string;
  note_bypass : list string;
  note_readers : list string
}.

(** What a handler sends. *)
Inductive sent :=
| DenyEmbed (message : string)
| ConfirmEmbed (message : string)
| ConfirmPrompt (message : string)
| LogInfo (message : string).

Inductive ConfirmResponse := CONFIRMED | DENIED | TIMEOUT.

Inductive outcome :=
| Returns (b : bool)
| CommandError (message : string).

(** [discord.utils.get(roles, name=name)]: the first role of that name. *)
Definition utils_get (roles : list Role) (name : string) : option Role :=
  List.find (fun r => String.eqb (role_name r) name) roles.

(** [role in roles]. *)
Definition role_in (role : Role) (roles : list Role) : bool :=
  existsb (fun r => Z.eqb (role_id r) (role_id role)) roles.

(** [member.add_roles(role)] and [member.remove_roles(role)]. *)
Definition add_roles (m : Member) (role : Role) : Member :=
  {| member_id := member_id m; member_name := member_name m;
     member_roles := if role_in role (member_roles m) then member_roles m
                     else member_roles m ++ [role] |}.

Definition remove_roles (m : Member) (role : Role) : Member :=
  {| member_id := member_id m; member_name := member_name m;
     member_roles :=
       List.filter (fun r => negb (Z.eqb (role_id r) (role_id role))) (member_roles m) |}.

(** [order_by(updated.desc())], by insertion. *)
Fixpoint insert_desc (n : UserNote) (l : list UserNote) : list UserNote :=
  match l with
  | [] => [n]
  | m :: l' =>
      if Qle_bool (updated m) (updated n) then n :: l else m :: insert_desc n l'
  end.

Definition order_desc (l : list UserNote) : list UserNote :=
  fold_right insert_desc [] l.

(** [Who.get_notes]: the notes of the user in the guild, newest first. *)
Definition get_notes (db : list UserNote) (user : Member) (guild : Guild) : list UserNote :=
  order_desc
    (List.filter
       (fun n => String.eqb (user_id n) (pretty (member_id user)) &&
                 String.eqb (guild_id n) (pretty (guild_snowflake guild)))
       db).

(** [note.create()]: the row gets the next primary key. *)
Definition create (db : list UserNote) (n : UserNote) : list UserNote :=
  db ++ [ {| pk := S (fold_right Nat.max 0%nat (map pk db));
             user_id := user_id n; guild_id := guild_id n; author_id := author_id n;
             body := body n; updated := updated n |} ].

(** [note.delete()]: the row of that primary key goes. *)
Definition delete (db : list UserNote) (n : UserNote) : list UserNote :=
  List.filter (fun m => negb (Nat.eqb (pk m) (pk n))) db.

(** [Who.is_reader]: with reader roles configured, whether the invoker has
    one of them; without any, a denial is sent and [CommandError] raised. *)
Definition is_reader (cfg : config) (guild : Guild) (user : Member) : outcome * list sent :=
  match note_readers cfg with
  | _ :: _ =>
      let roles := map (utils_get (guild_roles guild)) (note_readers cfg) in
      (Returns (existsb (fun role => match role with
                                     | Some r => role_in r (member_roles user)
                                     | None => false
                                     end) roles), [])
  | [] =>
      let message := "There aren't any `note_readers` roles set in the config!" in
      (CommandError message, [DenyEmbed message])
  end.

(** The loop of [set_note] over the bypass list: the first role of the
    list that exists in the guild and that the user has. *)
Fixpoint bypass_role (guild : Guild) (user : Member) (names : list string) : option Role :=
  match names with
  | [] => None
  | name :: rest =>
      match utils_get (guild_roles guild) name with
      | None => bypass_role guild user rest
      | Some role_check =>
          if role_in role_check (member_roles user) then Some role_check
          else bypass_role guild user rest
      end
  end.

(** The role that notes give, when the guild has a role of the configured
    name. *)
Definition note_role_of (cfg : config) (guild : Guild) : option Role :=
  match note_role cfg with
  | Some name => utils_get (guild_roles guild) name
  | None => None
  end.

(** [Who.set_note], on the table and the noted member; [now] is the time
    the row is stamped with. *)
Definition set_note (cfg : config) (guild : Guild) (invoker user : Member) (text : string)
    (now : Q) (db : list UserNote) : list UserNote * Member * list sent :=
  if Z.eqb (member_id invoker) (member_id user) then
    (db, user, [DenyEmbed "You cannot add a note for yourself"])
  else
    let note := {| pk := 0; user_id := pretty (member_id user);
                   guild_id := pretty (guild_snowflake guild);
                   author_id := pretty (member_id invoker);
                   body := text; updated := now |} in
    match bypass_role guild user (note_bypass cfg) with
    | Some role_check =>
        (db, user,
         [DenyEmbed ("You cannot assign notes to `" +:+ member_name user +:+ "` because " +:+
                     "they have `" +:+ role_name role_check +:+ "` role")])
    | None =>
        let db := create db note in
        match note_role_of cfg guild with
        | None =>
            (db, user,
             [ConfirmEmbed ("Note created for `" +:+ member_name user +:+ "`, but no note " +:+
                            "role is configured so no role was added")])
        | Some role =>
            (db, add_roles user role,
             [ConfirmEmbed ("Note created for `" +:+ member_name user +:+ "`")])
        end
    end.

(** [Who.clear_notes]; [answer] is what the confirmation ends with. *)
Definition clear_notes (cfg : config) (guild : Guild) (user : Member)
    (answer : ConfirmResponse) (db : list UserNote) : list UserNote * Member * list sent :=
  let notes := get_notes db user guild in
  match notes with
  | [] => (db, user, [DenyEmbed "There are no notes for that user"])
  | _ :: _ =>
      let prompt :=
        ConfirmPrompt ("Are you sure you want to clear " +:+ pretty (length notes) +:+ " notes?") in
      match answer with
      | TIMEOUT => (db, user, [prompt])
      | DENIED =>
          (db, user,
           [prompt; DenyEmbed ("Notes for `" +:+ member_name user +:+ "` were not cleared")])
      | CONFIRMED =>
          let db := fold_left delete notes db in
          let user :=
            match note_role_of cfg guild with
            | Some role => remove_roles user role
            | None => user
            end in
          (db, user,
           [prompt; ConfirmEmbed ("Notes cleared for `" +:+ member_name user +:+ "`")])
      end
  end.

(** [Who.on_member_join]. *)
Definition on_member_join (cfg : config) (guild : Guild) (member : Member)
    (db : list UserNote) : Member * list sent :=
  if negb (enabled cfg) then (member, [])
  else
    match note_role_of cfg guild with
    | None => (member, [])
    | Some role =>
        match get_notes db member guild with
        | [] => (member, [])
        | _ :: _ =>
            (add_roles member role,
             [LogInfo ("Found noted user with ID " +:+ pretty (member_id member) +:+
                       " joining - re-adding role")])
        end
    end.

(** A guild, its members and its configuration, for the examples. *)
Definition moderator : Role := {| role_id := 11; role_name := "Moderator" |}.
Definition noted : Role := {| role_id := 12; role_name := "Noted" |}.

Definition sample_guild : Guild :=
  {| guild_snowflake := 7000; guild_roles := [moderator; noted] |}.

Definition sample_config : config :=
  {| enabled := true; note_role := Some "Noted";
     note_bypass := ["Moderator"]; note_readers := ["Moderator"] |}.

Definition alice : Member :=
  {| member_id := 1; member_name := "alice"; member_roles := [moderator] |}.

Definition bob : Member :=
  {| member_id := 2; member_name := "bob"; member_roles := [] |}.

End Who.

(** The text is made of ASCII characters. *)
Definition ascii_text (s : string) : bool :=
  Url.all_chars (fun c => (nat_of_ascii c <? 128)%nat) s.

(** * Properties *)

(** ** Comparisons of clock readings *)

Lemma Qle_bool_true (a b : Q) : Qle_bool a b = true -> (a <= b)%Q.
Proof. apply Qle_bool_iff. Qed.

Lemma Qle_bool_false (a b : Q) : Qle_bool a b = false -> (b < a)%Q.
Proof.
  intros H. apply Qnot_le_lt. intros Hle.
  apply Qle_bool_iff in Hle. congruence.
Qed.

Lemma recent_true (t w x : Q) : recent t w x = true <-> (t - x < w)%Q.
Proof.
  unfold recent. destruct (Qle_bool w (t - x)) eqn:E; simpl.
  - apply Qle_bool_true in E. split; [discriminate | intros; lra].
  - apply Qle_bool_false in E. tauto.
Qed.

Lemma clock_ok_spec (t : Q) (w : world) :
  clock_ok t w = true ->
  (t <= now w)%Q /\ (now w <= now_get w)%Q /\ (now_get w <= now_set w)%Q.
Proof.
  unfold clock_ok. rewrite !andb_true_iff.
  intros [[H1 H2] H3]. auto using Qle_bool_true.
Qed.

(** ** The loop that drops expired timestamps *)

Lemma drop_expired_split (now w : Q) (l : list Q) :
  exists dropped,
    l = dropped ++ drop_expired now w l /\
    Forall (fun x => (w <= now - x)%Q) dropped.
Proof.
  induction l as [|t l IH]; simpl.
  - exists []. split; [reflexivity | constructor].
  - destruct (Qle_bool w (now - t)) eqn:E.
    + destruct IH as (dr & Heq & Hall). exists (t :: dr). split.
      * simpl. congruence.
      * constructor; [now apply Qle_bool_true | assumption].
    + exists []. split; [reflexivity | constructor].
Qed.

Lemma drop_expired_length (now w : Q) (l : list Q) :
  (length (drop_expired now w l) <= length l)%nat.
Proof.
  destruct (drop_expired_split now w l) as (dr & Heq & _).
  rewrite Heq at 2. rewrite length_app. lia.
Qed.

Lemma drop_expired_full (now w : Q) (l : list Q) :
  (length l <= length (drop_expired now w l))%nat -> drop_expired now w l = l.
Proof.
  intros H. destruct (drop_expired_split now w l) as (dr & Heq & _).
  assert (length dr = 0%nat) as Hz.
  { apply (f_equal (@length Q)) in Heq. rewrite length_app in Heq. lia. }
  destruct dr; [simpl in Heq; congruence | discriminate].
Qed.

Lemma drop_expired_head (now w t : Q) (l k : list Q) :
  drop_expired now w l = t :: k -> (now - t < w)%Q.
Proof.
  induction l as [|a l IH]; simpl; [discriminate |].
  destruct (Qle_bool w (now - a)) eqn:E; [assumption |].
  intros [= -> ->]. now apply Qle_bool_false.
Qed.

Lemma StronglySorted_app_inv_r (l1 l2 : list Q) :
  StronglySorted Qle (l1 ++ l2) -> StronglySorted Qle l2.
Proof.
  induction l1 as [|a l1 IH]; simpl; [tauto |].
  intros H. apply StronglySorted_inv in H as [H _]. auto.
Qed.

Lemma drop_expired_sorted (now w : Q) (l : list Q) :
  StronglySorted Qle l -> StronglySorted Qle (drop_expired now w l).
Proof.
  destruct (drop_expired_split now w l) as (dr & Heq & _).
  intros H. rewrite Heq in H. eapply StronglySorted_app_inv_r, H.
Qed.

Lemma drop_expired_Forall (P : Q -> Prop) (now w : Q) (l : list Q) :
  Forall P l -> Forall P (drop_expired now w l).
Proof.
  destruct (drop_expired_split now w l) as (dr & Heq & _).
  intros H. rewrite Heq in H. apply Forall_app in H. tauto.
Qed.

(** On a sorted history, what the loop keeps is inside the window. *)
Lemma drop_expired_kept_recent (now w : Q) (l : list Q) :
  StronglySorted Qle l ->
  Forall (fun x => (now - x < w)%Q) (drop_expired now w l).
Proof.
  intros Hs. apply (drop_expired_sorted now w) in Hs.
  destruct (drop_expired now w l) as [|t k] eqn:E; [constructor |].
  pose proof (drop_expired_head _ _ _ _ _ E) as Ht.
  apply StronglySorted_inv in Hs as [_ Hall].
  constructor; [assumption |].
  eapply List.Forall_impl; [| exact Hall]. simpl. intros a Ha. lra.
Qed.

(** The loop removes nothing that is inside a window ending at [now] or
    later. *)
Lemma drop_expired_filter_recent (now t w : Q) (l : list Q) :
  (now <= t)%Q ->
  List.filter (recent t w) (drop_expired now w l) = List.filter (recent t w) l.
Proof.
  intros Hle. induction l as [|a l IH]; simpl; [reflexivity |].
  destruct (Qle_bool w (now - a)) eqn:E; [| reflexivity].
  apply Qle_bool_true in E.
  destruct (recent t w a) eqn:R; [| assumption].
  apply recent_true in R. lra.
Qed.

Lemma filter_length_le {A : Type} (f : A -> bool) (l : list A) :
  (length (List.filter f l) <= length l)%nat.
Proof.
  induction l as [|a l IH]; simpl; [lia |]. destruct (f a); simpl; lia.
Qed.

Lemma StronglySorted_snoc (l : list Q) (x : Q) :
  StronglySorted Qle l -> Forall (fun y => (y <= x)%Q) l ->
  StronglySorted Qle (l ++ [x]).
Proof.
  induction l as [|a l IH]; simpl; intros Hs Hall.
  - repeat constructor.
  - apply StronglySorted_inv in Hs as [Hs Ha].
    apply Forall_cons_iff in Hall as [Hax Hall].
    constructor; [auto |].
    apply Forall_app. split; [assumption | constructor; [assumption | constructor]].
Qed.

(** ** The rate-limit stage *)

Lemma deque_eta (d : deque) : Deque (maxlen d) (items d) = d.
Proof. destruct d; reflexivity. Qed.

(** The stage for a host with a policy, in one equation: [kept] is what
    the loop leaves of the host's history. *)
Lemma rate_limit_stage_limited (bot : DataBot) (u : string) (now : Q)
    (quota : nat) (time_window : Q) :
  rate_limits bot !! Url.netloc u = Some (quota, time_window) ->
  let host := Url.netloc u in
  let d0 := default (deque_new quota) (url_rate_limit_history bot !! host) in
  let kept := drop_expired now time_window (items d0) in
  let d := Deque (maxlen d0) kept in
  rate_limit_stage bot u now =
    if (quota <=? length kept)%nat then
      (set_history bot (<[host := d]> (url_rate_limit_history bot)),
       Some match kept with
            | [] => IndexError
            | oldest :: _ => HTTPRateLimit (py_max (time_window - (now - oldest)) 0)
            end)
    else
      (set_history bot (<[host := deque_append now d]> (url_rate_limit_history bot)), None).
Proof.
  intros Hpol host d0 kept d. unfold rate_limit_stage. cbv zeta.
  rewrite Hpol. subst d kept d0 host.
  destruct (url_rate_limit_history bot !! Url.netloc u) as [e|] eqn:Hh; simpl.
  - rewrite Hh. simpl.
    destruct (quota <=? length (drop_expired now time_window (items e)))%nat.
    + destruct (drop_expired now time_window (items e)); reflexivity.
    + rewrite insert_insert_eq. reflexivity.
  - rewrite lookup_insert_eq. simpl. rewrite !insert_insert_eq.
    destruct quota; reflexivity.
Qed.

Lemma rate_limit_stage_unlimited (bot : DataBot) (u : string) (now : Q) :
  rate_limits bot !! Url.netloc u = None ->
  rate_limit_stage bot u now = (bot, None).
Proof. intros H. unfold rate_limit_stage. cbv zeta. rewrite H. reflexivity. Qed.

Lemma rate_limit_stage_limits (bot : DataBot) (u : string) (now : Q) :
  rate_limits (rate_limit_stage bot u now).1 = rate_limits bot.
Proof.
  unfold rate_limit_stage. cbv zeta.
  destruct (rate_limits bot !! Url.netloc u) as [[q w]|]; [| reflexivity].
  simpl. repeat match goal with |- context [if ?c then _ else _] => destruct c
                          | |- context [match ?c with [] => _ | _ :: _ => _ end] => destruct c
                end; reflexivity.
Qed.

Lemma rate_limit_stage_cache (bot : DataBot) (u : string) (now : Q) :
  http_cache (rate_limit_stage bot u now).1 = http_cache bot.
Proof.
  unfold rate_limit_stage. cbv zeta.
  destruct (rate_limits bot !! Url.netloc u) as [[q w]|]; [| reflexivity].
  simpl. repeat match goal with |- context [if ?c then _ else _] => destruct c
                          | |- context [match ?c with [] => _ | _ :: _ => _ end] => destruct c
                end; reflexivity.
Qed.

(** Another host's history is left alone. *)
Lemma rate_limit_stage_other (bot : DataBot) (u : string) (now : Q) (h : string) :
  h <> Url.netloc u ->
  url_rate_limit_history (rate_limit_stage bot u now).1 !! h =
  url_rate_limit_history bot !! h.
Proof.
  intros Hne.
  destruct (rate_limits bot !! Url.netloc u) as [[q w]|] eqn:Hpol.
  - rewrite (rate_limit_stage_limited _ _ _ _ _ Hpol).
    destruct (q <=? _)%nat; simpl; rewrite lookup_insert_ne; congruence.
  - rewrite rate_limit_stage_unlimited; auto.
Qed.

(** ** Frame properties of response processing and of the call *)

Ltac break_match :=
  repeat match goal with
         | |- context [match ?c with _ => _ end] =>
             lazymatch c with
             | context [match _ with _ => _ end] => fail
             | _ => destruct c eqn:?
             end
         end.

Lemma process_history (bot : DataBot) (resp : ClientResponse) (m k : string)
    (raw : bool) (msg : string) (t : Q) :
  url_rate_limit_history (process_http_response bot resp m k raw msg t).1.1 =
    url_rate_limit_history bot /\
  rate_limits (process_http_response bot resp m k raw msg t).1.1 = rate_limits bot.
Proof.
  unfold process_http_response. break_match; simpl; auto.
Qed.

(** The cache after response processing: one store for GET, nothing else. *)
Lemma process_cache (bot : DataBot) (resp : ClientResponse) (m k : string)
    (raw : bool) (msg : string) (t : Q) :
  http_cache (process_http_response bot resp m k raw msg t).1.1 =
    if String.eqb m "get" then Expiring.set (http_cache bot) k resp t else http_cache bot.
Proof.
  unfold process_http_response. break_match; simpl; auto.
Qed.

Lemma http_call_history (bot : DataBot) (r : request) (w : world) :
  url_rate_limit_history (http_call bot r w).1.1 =
    url_rate_limit_history (rate_limit_stage bot (url r) (now w)).1 /\
  rate_limits (http_call bot r w).1.1 = rate_limits bot.
Proof.
  pose proof (rate_limit_stage_limits bot (url r) (now w)) as Hl.
  unfold http_call.
  destruct (rate_limit_stage bot (url r) (now w)) as [b [e|]]; simpl in *; [auto |].
  rewrite <- Hl.
  repeat match goal with
         | |- context [process_http_response ?b ?x ?m ?k ?g ?l ?t] =>
             let H := fresh in
             pose proof (process_history b x m k g l t) as H;
             destruct (process_http_response b x m k g l t) as [[? ?] ?]; simpl in H
         | |- context [Expiring.get ?c ?k ?t] => destruct (Expiring.get c k t)
         | |- context [if ?c then _ else _] => destruct c
         | |- context [match ?c with _ => _ end] => destruct c
         end; simpl in *; intuition congruence.
Qed.

(** A call is admitted exactly when the stage falls through, and a call
    that is not admitted does nothing else. *)
Lemma http_call_refused (bot : DataBot) (r : request) (w : world) (e : exn) :
  (rate_limit_stage bot (url r) (now w)).2 = Some e ->
  http_call bot r w = ((rate_limit_stage bot (url r) (now w)).1, [], Raise e).
Proof.
  unfold http_call.
  destruct (rate_limit_stage bot (url r) (now w)) as [b [e'|]]; simpl; congruence.
Qed.

Lemma process_result_admitted (bot : DataBot) (resp : ClientResponse) (m k : string)
    (raw : bool) (msg : string) (t : Q) :
  admitted (process_http_response bot resp m k raw msg t).2 = true.
Proof.
  unfold process_http_response. break_match; reflexivity.
Qed.

Lemma http_call_admitted (bot : DataBot) (r : request) (w : world) :
  admitted (http_call bot r w).2 =
    match (rate_limit_stage bot (url r) (now w)).2 with
    | None => true
    | Some _ => false
    end.
Proof.
  destruct (rate_limit_stage bot (url r) (now w)).2 as [e|] eqn:Hs.
  - rewrite (http_call_refused _ _ _ _ Hs). simpl.
    unfold rate_limit_stage in Hs. cbv zeta in Hs.
    destruct (rate_limits bot !! Url.netloc (url r)) as [[q tw]|]; [| discriminate].
    simpl in Hs.
    repeat match type of Hs with
           | context [if ?c then _ else _] => destruct c
           | context [match ?c with [] => _ | _ :: _ => _ end] => destruct c
           end; simpl in Hs; inversion Hs; reflexivity.
  - unfold http_call.
    destruct (rate_limit_stage bot (url r) (now w)) as [b [e'|]]; simpl in Hs; [discriminate |].
    repeat match goal with
           | |- context [process_http_response ?b ?x ?m ?k ?g ?l ?t] =>
               let H := fresh in
               pose proof (process_result_admitted b x m k g l t) as H;
               destruct (process_http_response b x m k g l t) as [[? ?] ?]; simpl in H
           | |- context [Expiring.get ?c ?k ?t] => destruct (Expiring.get c k t)
           | |- context [if ?c then _ else _] => destruct c
           | |- context [match ?c with _ => _ end] => destruct c
           end; simpl in *; auto.
Qed.

(** ** The policy table *)

Lemma dict_literal_fold (l : list (string * (nat * Q))) (m : gmap string (nat * Q))
    (h : string) (v : nat * Q) :
  fold_left (fun m kv => <[kv.1 := kv.2]> m) l m !! h = Some v ->
  In (h, v) l \/ m !! h = Some v.
Proof.
  revert m. induction l as [|[k x] l IH]; simpl; intros m H; [auto |].
  apply IH in H as [H | H]; [auto |].
  destruct (decide (k = h)) as [-> | Hne].
  - rewrite lookup_insert_eq in H. inversion H. auto.
  - rewrite lookup_insert_ne in H by assumption. auto.
Qed.

(** Every policy of a constructed bot allows at least one call, over a
    window of positive length. *)
Lemma init_policy_positive (cfg : file_config) (h : string) (quota : nat) (time_window : Q) :
  rate_limits (DataBot_init cfg) !! h = Some (quota, time_window) ->
  (1 <= quota)%nat /\ (0 < time_window)%Q.
Proof.
  assert (forall m : gmap string (nat * Q),
             (m !! h = Some (quota, time_window) -> (1 <= quota)%nat /\ (0 < time_window)%Q) ->
             forall k q, (1 <= q)%nat ->
               <[k := (q, 60%Q)]> m !! h = Some (quota, time_window) ->
               (1 <= quota)%nat /\ (0 < time_window)%Q) as Hins.
  { intros m Hm k q Hq H. destruct (decide (k = h)) as [-> | Hne].
    - rewrite lookup_insert_eq in H. inversion H; subst. split; [lia | reflexivity].
    - rewrite lookup_insert_ne in H by assumption. auto. }
  assert (dict_literal rate_limit_table !! h = Some (quota, time_window) ->
          (1 <= quota)%nat /\ (0 < time_window)%Q) as Htab.
  { intros H. apply dict_literal_fold in H as [H | H].
    - unfold rate_limit_table in H. simpl in H.
      repeat (destruct H as [H | H];
              [inversion H; subst; split; [lia | reflexivity] |]).
      contradiction.
    - rewrite lookup_empty in H. discriminate. }
  unfold DataBot_init. simpl.
  destruct (dumpdbg cfg), (linx cfg); intros H.
  - eapply Hins; [| | exact H]; [| lia].
    intros H'. eapply Hins; [exact Htab | | exact H']. lia.
  - eapply Hins; [exact Htab | | exact H]. lia.
  - eapply Hins; [exact Htab | | exact H]. lia.
  - exact (Htab H).
Qed.

(** ** The invariant of the rate limiter *)

Lemma deque_ok_later (quota : nat) (t t' : Q) (d : deque) :
  (t <= t')%Q -> deque_ok quota t d -> deque_ok quota t' d.
Proof.
  intros Hle (Hm & Hlen & Hs & Hall). repeat split; try assumption.
  eapply List.Forall_impl; [| exact Hall]. simpl. intros a Ha. lra.
Qed.

Lemma bot_ok_later (cfg : file_config) (t t' : Q) (bot : DataBot) :
  (t <= t')%Q -> bot_ok cfg t bot -> bot_ok cfg t' bot.
Proof.
  intros Hle [Hlim Hh]. split; [assumption |].
  intros h d Hd. destruct (Hh h d Hd) as (q & w & Hp & Hok).
  exists q, w. eauto using deque_ok_later.
Qed.

Lemma deque_new_ok (quota : nat) (t : Q) : deque_ok quota t (deque_new quota).
Proof. repeat split; simpl; try constructor. lia. Qed.

(** The deque the stage works on. *)
Lemma stage_deque_ok (cfg : file_config) (t : Q) (bot : DataBot) (h : string)
    (quota : nat) (time_window : Q) :
  bot_ok cfg t bot ->
  rate_limits bot !! h = Some (quota, time_window) ->
  deque_ok quota t (default (deque_new quota) (url_rate_limit_history bot !! h)).
Proof.
  intros [_ Hh] Hp.
  destruct (url_rate_limit_history bot !! h) as [d|] eqn:Hd; simpl.
  - destruct (Hh h d Hd) as (q & w & Hp' & Hok). congruence.
  - apply deque_new_ok.
Qed.

Lemma kept_ok (quota : nat) (t now w : Q) (d : deque) :
  (t <= now)%Q -> deque_ok quota t d ->
  deque_ok quota now (Deque (maxlen d) (drop_expired now w (items d))).
Proof.
  intros Hle (Hm & Hlen & Hs & Hall). repeat split; simpl.
  - assumption.
  - pose proof (drop_expired_length now w (items d)). lia.
  - now apply drop_expired_sorted.
  - apply drop_expired_Forall.
    eapply List.Forall_impl; [| exact Hall]. simpl. intros a Ha. lra.
Qed.

Lemma deque_append_room (x : Q) (d : deque) :
  (length (items d) < maxlen d)%nat ->
  deque_append x d = Deque (maxlen d) (items d ++ [x]).
Proof.
  intros H. unfold deque_append. simpl.
  destruct (Nat.ltb_spec (maxlen d) (length (items d ++ [x]))) as [Hlt | _]; [| reflexivity].
  rewrite length_app in Hlt. simpl in Hlt. lia.
Qed.

Lemma append_ok (quota : nat) (now : Q) (d : deque) :
  deque_ok quota now d -> (length (items d) < quota)%nat ->
  deque_ok quota now (deque_append now d).
Proof.
  intros (Hm & Hlen & Hs & Hall) Hlt.
  rewrite deque_append_room by lia. repeat split; simpl.
  - assumption.
  - rewrite length_app. simpl. lia.
  - now apply StronglySorted_snoc.
  - apply Forall_app. split; [assumption |]. repeat constructor. lra.
Qed.

Lemma stage_ok (cfg : file_config) (t : Q) (bot : DataBot) (u : string) (now : Q) :
  bot_ok cfg t bot -> (t <= now)%Q ->
  bot_ok cfg now (rate_limit_stage bot u now).1.
Proof.
  intros Hok Hle.
  destruct (rate_limits bot !! Url.netloc u) as [[q w]|] eqn:Hpol.
  - pose proof (stage_deque_ok _ _ _ _ _ _ Hok Hpol) as Hd0.
    pose proof (kept_ok _ _ _ w _ Hle Hd0) as Hk.
    rewrite (rate_limit_stage_limited _ _ _ _ _ Hpol).
    apply (bot_ok_later _ _ _ _ Hle) in Hok. destruct Hok as [Hlim Hh].
    remember (default (deque_new q) (url_rate_limit_history bot !! Url.netloc u)) as d0.
    remember (Deque (maxlen d0) (drop_expired now w (items d0))) as d.
    assert (items d = drop_expired now w (items d0)) as Hit by (subst d; reflexivity).
    rewrite <- Hit.
    destruct (Nat.leb_spec q (length (items d))) as [Hfull | Hroom];
      cbn [fst set_history url_rate_limit_history rate_limits];
      (split; [assumption |]); intros h e He;
      cbn [fst set_history url_rate_limit_history rate_limits] in *.
    + destruct (decide (h = Url.netloc u)) as [-> | Hne].
      * rewrite lookup_insert_eq in He. inversion He; subst e. eauto.
      * rewrite lookup_insert_ne in He by congruence. auto.
    + destruct (decide (h = Url.netloc u)) as [-> | Hne].
      * rewrite lookup_insert_eq in He. inversion He; subst e.
        exists q, w. split; [assumption |]. apply append_ok; assumption.
      * rewrite lookup_insert_ne in He by congruence. auto.
  - rewrite rate_limit_stage_unlimited by assumption. simpl.
    eauto using bot_ok_later.
Qed.

Lemma http_call_ok (cfg : file_config) (t : Q) (bot : DataBot) (r : request) (w : world) :
  bot_ok cfg t bot -> clock_ok t w = true ->
  bot_ok cfg (now_set w) (http_call bot r w).1.1.
Proof.
  intros Hok Hc. apply clock_ok_spec in Hc as (H1 & H2 & H3).
  pose proof (stage_ok _ _ _ (url r) _ Hok H1) as [Hlim Hh].
  destruct (http_call_history bot r w) as [Hhist Hrl].
  rewrite rate_limit_stage_limits in Hlim.
  apply (bot_ok_later cfg (now w)); [lra |].
  split; [congruence |]. rewrite Hhist, Hrl.
  intros h d Hd. specialize (Hh h d Hd).
  rewrite rate_limit_stage_limits in Hh. exact Hh.
Qed.

Lemma init_ok (cfg : file_config) (t : Q) : bot_ok cfg t (DataBot_init cfg).
Proof.
  split; [reflexivity |]. intros h d Hd. simpl in Hd.
  rewrite lookup_empty in Hd. discriminate.
Qed.

Lemma run_cons (bot : DataBot) (r : request) (w : world) (rest : list (request * world)) :
  run bot ((r, w) :: rest) =
    ((run (http_call bot r w).1.1 rest).1,
     ((http_call bot r w).1.2, (http_call bot r w).2) :: (run (http_call bot r w).1.1 rest).2).
Proof.
  simpl. destruct (http_call bot r w) as [[b ev] res]. simpl.
  destruct (run b rest); reflexivity.
Qed.

Lemma run_ok (cfg : file_config) (calls : list (request * world)) :
  forall (t : Q) (bot : DataBot),
    bot_ok cfg t bot -> monotone t calls = true ->
    bot_ok cfg (last_reading t calls) (run bot calls).1.
Proof.
  induction calls as [|[r w] rest IH]; intros t bot Hok Hm.
  - exact Hok.
  - simpl in Hm. apply andb_true_iff in Hm as [Hc Hm].
    rewrite run_cons. simpl. apply IH; [| assumption].
    now apply http_call_ok with (t := t).
Qed.

Lemma reachable_ok (cfg : file_config) (t : Q) (bot : DataBot) :
  reachable cfg t bot -> bot_ok cfg t bot.
Proof.
  intros (t0 & calls & Hm & <- & <-). apply run_ok; [apply init_ok | assumption].
Qed.

(** ** Traces and the sliding window *)

Lemma timestamps_default (bot : DataBot) (h : string) (quota : nat) :
  items (default (deque_new quota) (url_rate_limit_history bot !! h)) = timestamps bot h.
Proof.
  unfold timestamps. destruct (url_rate_limit_history bot !! h); reflexivity.
Qed.

Lemma timestamps_http_call (bot : DataBot) (r : request) (w : world) (h : string) :
  timestamps (http_call bot r w).1.1 h =
  timestamps (rate_limit_stage bot (url r) (now w)).1 h.
Proof.
  unfold timestamps. destruct (http_call_history bot r w) as [-> _]. reflexivity.
Qed.

(** The history of the called host after the stage. *)
Lemma stage_timestamps (cfg : file_config) (t : Q) (bot : DataBot) (u : string) (now : Q)
    (quota : nat) (time_window : Q) :
  bot_ok cfg t bot ->
  rate_limits bot !! Url.netloc u = Some (quota, time_window) ->
  let kept := drop_expired now time_window (timestamps bot (Url.netloc u)) in
  timestamps (rate_limit_stage bot u now).1 (Url.netloc u) =
    if (quota <=? length kept)%nat then kept else kept ++ [now].
Proof.
  intros Hok Hpol kept.
  pose proof (stage_deque_ok _ _ _ _ _ _ Hok Hpol) as (Hm & Hlen & _).
  rewrite (rate_limit_stage_limited _ _ _ _ _ Hpol).
  rewrite timestamps_default. fold kept.
  destruct (Nat.leb_spec quota (length kept)) as [Hfull | Hroom];
    unfold timestamps; cbn [fst set_history url_rate_limit_history];
    rewrite lookup_insert_eq; [reflexivity |].
  rewrite deque_append_room; [reflexivity |]. simpl. lia.
Qed.

Lemma monotone_last (calls : list (request * world)) :
  forall t, monotone t calls = true -> (t <= last_reading t calls)%Q.
Proof.
  induction calls as [|[r w] rest IH]; simpl; intros t Hm; [lra |].
  apply andb_true_iff in Hm as [Hc Hm]. apply clock_ok_spec in Hc.
  specialize (IH _ Hm). lra.
Qed.

(** One call adds its clock reading to what the history of [host] holds
    inside a window that ends later, when it is an admitted call to [host],
    and changes nothing of it otherwise. *)
Lemma http_call_recent (cfg : file_config) (t T : Q) (bot : DataBot) (r : request) (w : world)
    (host : string) (quota : nat) (time_window : Q) :
  bot_ok cfg t bot -> (t <= now w)%Q -> (now w <= T)%Q ->
  rate_limits bot !! host = Some (quota, time_window) ->
  List.filter (recent T time_window) (timestamps (http_call bot r w).1.1 host) =
  List.filter (recent T time_window) (timestamps bot host) ++
  (if String.eqb (Url.netloc (url r)) host && admitted (http_call bot r w).2
   then List.filter (recent T time_window) [now w] else []).
Proof.
  intros Hok Ht HT Hpol. rewrite timestamps_http_call, http_call_admitted.
  destruct (String.eqb_spec (Url.netloc (url r)) host) as [<- | Hne].
  - rewrite (stage_timestamps _ _ _ _ _ _ _ Hok Hpol).
    rewrite (rate_limit_stage_limited _ _ _ _ _ Hpol), timestamps_default.
    destruct (quota <=? _)%nat; cbn [snd andb].
    + rewrite app_nil_r. now apply drop_expired_filter_recent.
    + rewrite List.filter_app. f_equal. now apply drop_expired_filter_recent.
  - cbn [andb]. rewrite app_nil_r. unfold timestamps.
    rewrite rate_limit_stage_other by congruence. reflexivity.
Qed.

Lemma run_recent (cfg : file_config) (host : string) (quota : nat) (time_window T : Q)
    (calls : list (request * world)) :
  forall (t : Q) (bot : DataBot),
    bot_ok cfg t bot -> monotone t calls = true ->
    rate_limits bot !! host = Some (quota, time_window) ->
    (last_reading t calls <= T)%Q ->
    List.filter (recent T time_window) (timestamps (run bot calls).1 host) =
    List.filter (recent T time_window) (timestamps bot host) ++
    List.filter (recent T time_window) (admitted_times host calls (run bot calls).2).
Proof.
  induction calls as [|[r w] rest IH]; intros t bot Hok Hm Hpol HT.
  - simpl. now rewrite app_nil_r.
  - pose proof Hm as Hm'. simpl in Hm'. apply andb_true_iff in Hm' as [Hc Hrest].
    pose proof (monotone_last _ _ Hrest) as Hlast.
    pose proof (clock_ok_spec _ _ Hc) as (H1 & H2 & H3).
    simpl in HT.
    rewrite run_cons. cbn [fst snd admitted_times].
    rewrite (IH (now_set w)); try assumption.
    + rewrite (http_call_recent cfg t T) with (quota := quota); try assumption; [| lra].
      rewrite <- app_assoc. f_equal.
      destruct (String.eqb (Url.netloc (url r)) host && admitted (http_call bot r w).2);
        [| reflexivity].
      simpl. destruct (recent T time_window (now w)); reflexivity.
    + now apply http_call_ok with (t := t).
    + destruct (http_call_history bot r w) as [_ ->]. assumption.
Qed.

(** ** The sliding window, the invariant and the error path *)

Lemma reachable_policy_positive (cfg : file_config) (t : Q) (bot : DataBot)
    (h : string) (quota : nat) (time_window : Q) :
  bot_ok cfg t bot ->
  rate_limits bot !! h = Some (quota, time_window) ->
  (1 <= quota)%nat /\ (0 < time_window)%Q.
Proof.
  intros [Hlim _] Hpol. rewrite Hlim in Hpol.
  eapply init_policy_positive, Hpol.
Qed.

Lemma py_max_positive (x : Q) : (0 < x)%Q -> py_max x 0 = x.
Proof.
  intros H. unfold py_max.
  destruct (Qle_bool 0 x) eqn:E; [reflexivity |].
  apply Qle_bool_false in E. lra.
Qed.

(** A full window refuses the call, with a wait that is positive and at
    most the window. *)
Lemma stage_refuses (cfg : file_config) (t : Q) (bot : DataBot) (u : string) (now : Q)
    (quota : nat) (time_window : Q) :
  bot_ok cfg t bot -> (t <= now)%Q ->
  rate_limits bot !! Url.netloc u = Some (quota, time_window) ->
  let kept := drop_expired now time_window (timestamps bot (Url.netloc u)) in
  (quota <= length kept)%nat ->
  exists oldest rest,
    kept = oldest :: rest /\
    (rate_limit_stage bot u now).2 =
      Some (HTTPRateLimit (py_max (time_window - (now - oldest)) 0)) /\
    py_max (time_window - (now - oldest)) 0 = (time_window - (now - oldest))%Q /\
    (0 < time_window - (now - oldest))%Q /\
    (time_window - (now - oldest) <= time_window)%Q.
Proof.
  intros Hok Hle Hpol kept Hfull.
  destruct (reachable_policy_positive _ _ _ _ _ _ Hok Hpol) as [Hq _].
  pose proof (stage_deque_ok _ _ _ _ _ _ Hok Hpol) as Hd0.
  pose proof (kept_ok _ _ _ time_window _ Hle Hd0) as (_ & _ & _ & Hall).
  simpl in Hall. rewrite timestamps_default in Hall. fold kept in Hall.
  rewrite (rate_limit_stage_limited _ _ _ _ _ Hpol), timestamps_default.
  fold kept. destruct (Nat.leb_spec quota (length kept)) as [_ | Hlt]; [| lia].
  destruct kept as [|oldest rest] eqn:Ek; [simpl in Hfull; lia |].
  exists oldest, rest. cbn [snd].
  pose proof (drop_expired_head _ _ _ _ _ Ek) as Hfresh.
  apply Forall_cons_iff in Hall as [Hold _].
  assert (0 < time_window - (now - oldest))%Q as Hpos by lra.
  repeat split; try assumption.
  - now apply py_max_positive.
  - lra.
Qed.

(** C1, as the code has it: under a clock whose successive readings do
    not decrease, for a host with a policy, a call first drops from the
    front of the host's history every timestamp that is as old as the
    window or older; if as many as the quota remain, the call fails with the
    rate-limit error whose wait is the window minus the age of the oldest
    remaining one, clamped at zero, and that wait is positive and at most
    the window; otherwise the clock reading is appended and the call goes
    on. Hence, after as many admitted calls as the quota inside one window,
    the next call in that window fails. *)
Theorem sliding_window_limit (cfg : file_config) (t : Q) (bot : DataBot)
    (r : request) (w : world) (quota : nat) (time_window : Q) :
  reachable cfg t bot ->
  (t <= now w)%Q ->
  rate_limits bot !! Url.netloc (url r) = Some (quota, time_window) ->
  let host := Url.netloc (url r) in
  let old := timestamps bot host in
  let kept := drop_expired (now w) time_window old in
  (exists dropped,
      old = dropped ++ kept /\
      Forall (fun x => (time_window <= now w - x)%Q) dropped /\
      Forall (fun x => (now w - x < time_window)%Q) kept) /\
  ((quota <= length kept)%nat ->
     exists oldest rest wait,
       kept = oldest :: rest /\
       (http_call bot r w).2 = Raise (HTTPRateLimit wait) /\
       wait = py_max (time_window - (now w - oldest)) 0 /\
       (0 < wait)%Q /\ (wait <= time_window)%Q) /\
  ((length kept < quota)%nat ->
     admitted (http_call bot r w).2 = true /\
     timestamps (http_call bot r w).1.1 host = kept ++ [now w]) /\
  (forall (calls : list (request * world)) (w' : world),
     monotone t calls = true ->
     (last_reading t calls <= now w')%Q ->
     (quota <= length (List.filter (recent (now w') time_window)
                         (admitted_times host calls (run bot calls).2)))%nat ->
     exists wait,
       (http_call (run bot calls).1 r w').2 = Raise (HTTPRateLimit wait) /\
       (0 < wait)%Q /\ (wait <= time_window)%Q).
Proof.
  intros Hreach Hle Hpol host old kept.
  pose proof (reachable_ok _ _ _ Hreach) as Hok.
  pose proof (stage_deque_ok _ _ _ _ _ _ Hok Hpol) as (_ & _ & Hsorted & _).
  rewrite timestamps_default in Hsorted.
  repeat split.
  - destruct (drop_expired_split (now w) time_window old) as (dr & Heq & Hdr).
    exists dr. repeat split; try assumption.
    now apply drop_expired_kept_recent.
  - intros Hfull.
    destruct (stage_refuses _ _ _ _ _ _ _ Hok Hle Hpol Hfull)
      as (oldest & rest & Hk & Hst & Hmax & Hpos & Hbound).
    exists oldest, rest, (py_max (time_window - (now w - oldest)) 0).
    rewrite (http_call_refused _ _ _ _ Hst). rewrite Hmax. auto.
  - rewrite http_call_admitted, (rate_limit_stage_limited _ _ _ _ _ Hpol).
    rewrite timestamps_default. fold host old kept.
    destruct (Nat.leb_spec quota (length kept)); [lia | reflexivity].
  - rewrite timestamps_http_call.
    rewrite (stage_timestamps _ _ _ _ _ _ _ Hok Hpol). fold host old kept.
    destruct (Nat.leb_spec quota (length kept)); [lia | reflexivity].
  - intros calls w' Hm Hlast Hcount.
    pose proof (run_ok _ _ _ _ Hok Hm) as Hok'.
    assert (rate_limits (run bot calls).1 !! host = Some (quota, time_window)) as Hpol'.
    { destruct Hok as [Hl _], Hok' as [Hl' _]. rewrite Hl', <- Hl. exact Hpol. }
    pose proof (run_recent cfg host quota time_window (now w') calls t bot
                  Hok Hm Hpol Hlast) as Hrec.
    assert (quota <= length (drop_expired (now w') time_window
                               (timestamps (run bot calls).1 host)))%nat as Hfull.
    { etransitivity; [exact Hcount |].
      etransitivity; [| apply (filter_length_le (recent (now w') time_window))].
      rewrite drop_expired_filter_recent by lra.
      rewrite Hrec, length_app. lia. }
    destruct (stage_refuses _ _ _ _ _ _ _ Hok' Hlast Hpol' Hfull)
      as (oldest & rest & Hk & Hst & Hmax & Hpos & Hbound).
    exists (py_max (time_window - (now w' - oldest)) 0).
    rewrite (http_call_refused _ _ _ _ Hst). rewrite Hmax. auto.
Qed.

Lemma sample_bot_reachable : reachable sample_config 0 sample_bot.
Proof.
  exists 0%Q, sample_calls. repeat split; reflexivity.
Defined.

Lemma sliding_window_limit_witness :
  reachable sample_config 0 sample_bot /\
  rate_limits sample_bot !! Url.netloc (url ipinfo_request) = Some (1%nat, 30%Q) /\
  exists wait,
    (http_call sample_bot ipinfo_request (world_at 5 sample_response)).2 =
      Raise (HTTPRateLimit wait) /\
    (0 < wait)%Q /\ (wait <= 30)%Q.
Proof.
  assert (rate_limits sample_bot !! Url.netloc (url ipinfo_request) = Some (1%nat, 30%Q))
    as Hpol by (vm_compute; reflexivity).
  assert (0 <= now (world_at 5 sample_response))%Q as Hle by (vm_compute; discriminate).
  split; [exact sample_bot_reachable |]. split; [exact Hpol |].
  destruct (sliding_window_limit sample_config 0 sample_bot ipinfo_request
              (world_at 5 sample_response) 1 30 sample_bot_reachable Hle Hpol)
    as (_ & Hfail & _).
  destruct Hfail as (oldest & rest & wait & _ & Hres & _ & Hpos & Hbound).
  - vm_compute. lia.
  - exists wait. auto.
Defined.

(** C1 as stated, without the assumption on the clock, fails: when the
    clock is set back between two calls, from 5 to 0, the second call to a
    host that allows one call in thirty seconds finds the timestamp 5 in the
    window and is refused with a wait of thirty-five seconds, more than the
    window. *)
Lemma sliding_window_backwards_clock_counterexample :
  let bot := (http_call (DataBot_init sample_config) ipinfo_request
                (world_at 5 sample_response)).1.1 in
  constructed sample_config bot /\
  rate_limits bot !! Url.netloc (url ipinfo_request) = Some (1%nat, 30%Q) /\
  timestamps bot (Url.netloc (url ipinfo_request)) = [5%Q] /\
  drop_expired 0 30 (timestamps bot (Url.netloc (url ipinfo_request))) = [5%Q] /\
  (http_call bot ipinfo_request (world_at 0 sample_response)).2 =
    Raise (HTTPRateLimit 35) /\
  ~ (35 <= 30)%Q.
Proof.
  cbv zeta.
  split; [exists [(ipinfo_request, world_at 5 sample_response)]; reflexivity |].
  split; [vm_compute; reflexivity |].
  split; [vm_compute; reflexivity |].
  split; [vm_compute; reflexivity |].
  split; [vm_compute; reflexivity |].
  intros H. vm_compute in H. apply H. reflexivity.
Qed.

(** C7: before and after every call, under a clock that does not run
    backwards, the history of every host holds no more timestamps than the
    host's quota and is in non-decreasing order. *)
Theorem history_invariant (cfg : file_config) (t : Q) (bot : DataBot)
    (r : request) (w : world) :
  reachable cfg t bot ->
  clock_ok t w = true ->
  history_within_quota bot /\ history_within_quota (http_call bot r w).1.1.
Proof.
  intros Hreach Hc. apply reachable_ok in Hreach.
  pose proof (http_call_ok _ _ _ r _ Hreach Hc) as Hafter.
  assert (forall t' b, bot_ok cfg t' b -> history_within_quota b) as Hinv.
  { intros t' b [_ Hh] h d Hd.
    destruct (Hh h d Hd) as (q & tw & Hp & _ & Hlen & Hs & _). eauto. }
  eauto.
Qed.

Lemma history_invariant_witness :
  history_within_quota sample_bot /\
  history_within_quota
    (http_call sample_bot giphy_request (world_at 5 sample_response)).1.1.
Proof.
  apply (history_invariant sample_config 0 sample_bot giphy_request
           (world_at 5 sample_response) sample_bot_reachable).
  reflexivity.
Defined.

(** The bound on the length of a history holds under any clock. *)
Lemma stage_sized (cfg : file_config) (bot : DataBot) (u : string) (now : Q) :
  bot_sized cfg bot -> bot_sized cfg (rate_limit_stage bot u now).1.
Proof.
  intros [Hlim Hh].
  destruct (rate_limits bot !! Url.netloc u) as [[q w]|] eqn:Hpol.
  - assert (deque_sized q (default (deque_new q)
              (url_rate_limit_history bot !! Url.netloc u))) as [Hm Hlen].
    { destruct (url_rate_limit_history bot !! Url.netloc u) as [d|] eqn:Hd; simpl.
      - destruct (Hh _ _ Hd) as (q' & w' & Hp' & Hs). congruence.
      - split; [reflexivity | simpl; lia]. }
    rewrite (rate_limit_stage_limited _ _ _ _ _ Hpol).
    remember (default (deque_new q) (url_rate_limit_history bot !! Url.netloc u)) as d0.
    pose proof (drop_expired_length now w (items d0)) as Hk.
    remember (Deque (maxlen d0) (drop_expired now w (items d0))) as d.
    assert (items d = drop_expired now w (items d0)) as Hit by (subst d; reflexivity).
    assert (maxlen d = q) as Hmd by (subst d; assumption).
    rewrite <- Hit in *.
    destruct (Nat.leb_spec q (length (items d))) as [Hfull | Hroom];
      (split; [assumption |]); intros h e He;
      cbn [fst set_history url_rate_limit_history rate_limits] in *.
    + destruct (decide (h = Url.netloc u)) as [-> | Hne].
      * rewrite lookup_insert_eq in He. inversion He; subst e.
        exists q, w. repeat split; [assumption | assumption | lia].
      * rewrite lookup_insert_ne in He by congruence. auto.
    + destruct (decide (h = Url.netloc u)) as [-> | Hne].
      * rewrite lookup_insert_eq in He. inversion He; subst e.
        exists q, w. split; [assumption |].
        rewrite deque_append_room by lia. split; simpl; [assumption |].
        rewrite length_app. simpl. lia.
      * rewrite lookup_insert_ne in He by congruence. auto.
  - rewrite rate_limit_stage_unlimited by assumption. split; assumption.
Qed.

Lemma http_call_sized (cfg : file_config) (bot : DataBot) (r : request) (w : world) :
  bot_sized cfg bot -> bot_sized cfg (http_call bot r w).1.1.
Proof.
  intros Hs. pose proof (stage_sized _ _ (url r) (now w) Hs) as [Hlim Hh].
  destruct (http_call_history bot r w) as [Hhist Hrl].
  rewrite rate_limit_stage_limits in Hlim, Hh.
  split; [congruence |]. rewrite Hhist, Hrl. exact Hh.
Qed.

Lemma run_sized (cfg : file_config) (calls : list (request * world)) :
  forall bot, bot_sized cfg bot -> bot_sized cfg (run bot calls).1.
Proof.
  induction calls as [|[r w] rest IH]; intros b Hb; [exact Hb |].
  rewrite run_cons. cbn [fst]. apply IH. now apply http_call_sized.
Qed.

Lemma constructed_sized (cfg : file_config) (bot : DataBot) :
  constructed cfg bot -> bot_sized cfg bot.
Proof.
  intros [calls <-]. apply run_sized.
  split; [reflexivity |]. intros h d Hd. simpl in Hd.
  rewrite lookup_empty in Hd. discriminate.
Qed.

Lemma sample_bot_constructed : constructed sample_config sample_bot.
Proof. exists sample_calls. reflexivity. Defined.

(** C3: a call that fails with the rate-limit error has made no transport
    call, has neither read nor written the cache, and has left the whole
    state of the facade as it was, the history of the host included. *)
Theorem rate_limit_error_is_atomic (cfg : file_config) (bot : DataBot)
    (r : request) (w : world) (wait : Q) :
  constructed cfg bot ->
  (http_call bot r w).2 = Raise (HTTPRateLimit wait) ->
  http_call bot r w = (bot, [], Raise (HTTPRateLimit wait)).
Proof.
  intros Hc Hres. apply constructed_sized in Hc as [_ Hh].
  pose proof (http_call_admitted bot r w) as Hadm. rewrite Hres in Hadm. simpl in Hadm.
  destruct (rate_limit_stage bot (url r) (now w)).2 as [e|] eqn:Hst; [| discriminate].
  rewrite (http_call_refused _ _ _ _ Hst) in Hres |- *.
  simpl in Hres. injection Hres as ->. f_equal. f_equal.
  destruct (rate_limits bot !! Url.netloc (url r)) as [[q tw]|] eqn:Hpol.
  - rewrite (rate_limit_stage_limited _ _ _ _ _ Hpol) in Hst |- *.
    destruct (Nat.leb_spec q (length (drop_expired (now w) tw
                (items (default (deque_new q)
                   (url_rate_limit_history bot !! Url.netloc (url r)))))))
      as [Hfull | Hroom]; [| discriminate].
    cbn [fst snd] in *.
    destruct (url_rate_limit_history bot !! Url.netloc (url r)) as [d|] eqn:Hd;
      [| discriminate].
    destruct (Hh _ _ Hd) as (q' & tw' & Hp' & Hm & Hlen).
    assert (q' = q) as -> by congruence.
    simpl in Hfull |- *.
    rewrite drop_expired_full by lia.
    rewrite deque_eta, insert_id by assumption.
    destruct bot; reflexivity.
  - rewrite rate_limit_stage_unlimited in Hst by assumption. discriminate.
Qed.

Lemma rate_limit_error_is_atomic_witness :
  http_call sample_bot ipinfo_request (world_at 5 sample_response) =
    (sample_bot, [], Raise (HTTPRateLimit 25)).
Proof.
  apply (rate_limit_error_is_atomic sample_config sample_bot ipinfo_request
           (world_at 5 sample_response) 25 sample_bot_constructed).
  vm_compute. reflexivity.
Defined.

Lemma run_limits (calls : list (request * world)) :
  forall bot, rate_limits (run bot calls).1 = rate_limits bot.
Proof.
  induction calls as [|[r w] rest IH]; intros bot; [reflexivity |].
  rewrite run_cons. cbn [fst]. rewrite IH.
  now destruct (http_call_history bot r w).
Qed.

(** A call to a host without a policy is admitted and leaves the whole
    history alone. *)
Lemma unlimited_call (bot : DataBot) (r : request) (w : world) :
  rate_limits bot !! Url.netloc (url r) = None ->
  admitted (http_call bot r w).2 = true /\
  url_rate_limit_history (http_call bot r w).1.1 = url_rate_limit_history bot.
Proof.
  intros Hnone. rewrite http_call_admitted.
  destruct (http_call_history bot r w) as [-> _].
  rewrite rate_limit_stage_unlimited by assumption. auto.
Qed.

Lemma admitted_not_rate_limit (res : result) :
  admitted res = true -> forall wait, res <> Raise (HTTPRateLimit wait).
Proof. intros H wait ->. discriminate. Qed.

(** C8: for a host that has no policy, every call of any sequence of calls,
    at any clock readings, goes past the rate-limit stage, no rate-limit
    error is raised for it, and the history of the host is neither created
    nor changed. *)
Theorem unlimited_host_always_passes (h : string) (calls : list (request * world)) :
  forall bot : DataBot,
    rate_limits bot !! h = None ->
    url_rate_limit_history (run bot calls).1 !! h = url_rate_limit_history bot !! h /\
    (forall (i : nat) (r : request) (w : world) (ev : list event) (res : result),
        calls !! i = Some (r, w) ->
        (run bot calls).2 !! i = Some (ev, res) ->
        Url.netloc (url r) = h ->
        admitted res = true /\ forall wait, res <> Raise (HTTPRateLimit wait)).
Proof.
  induction calls as [|[r w] rest IH]; intros bot Hnone.
  - split; [reflexivity |]. intros i r w ev res Hi. destruct i; discriminate.
  - rewrite run_cons. cbn [fst snd].
    destruct (http_call_history bot r w) as [Hhist Hlim].
    assert (rate_limits (http_call bot r w).1.1 !! h = None) as Hnone'
      by (rewrite Hlim; exact Hnone).
    destruct (IH _ Hnone') as [IHh IHc]. split.
    + rewrite IHh, Hhist.
      destruct (decide (h = Url.netloc (url r))) as [-> | Hne].
      * rewrite rate_limit_stage_unlimited by assumption. reflexivity.
      * now apply rate_limit_stage_other.
    + intros [|i] r' w' ev res Hi Ho Hhost.
      * simpl in Hi, Ho. injection Hi as -> ->. injection Ho as <- <-.
        subst h. destruct (unlimited_call bot r' w' Hnone) as [Hadm _].
        split; [assumption | now apply admitted_not_rate_limit].
      * simpl in Hi, Ho. eauto.
Qed.

Lemma unlimited_host_always_passes_witness :
  url_rate_limit_history
    (run sample_bot [(example_post, world_at 1 sample_response);
                     (example_post, world_at 1 sample_response)]).1 !! "example.org" =
  url_rate_limit_history sample_bot !! "example.org".
Proof.
  apply (unlimited_host_always_passes "example.org"
           [(example_post, world_at 1 sample_response);
            (example_post, world_at 1 sample_response)] sample_bot).
  vm_compute. reflexivity.
Defined.

(** ** The response cache *)

Lemma dict_get_set_eq {A : Type} (k : string) (v : A) (d : list (string * A)) :
  dict_get k (dict_set k v d) = Some v.
Proof.
  induction d as [|[k' v'] d IH]; simpl.
  - now rewrite String.eqb_refl.
  - destruct (String.eqb k' k) eqn:E; simpl.
    + now rewrite String.eqb_refl.
    + now rewrite E.
Qed.

Lemma dict_set_keys {A : Type} (k x : string) (v : A) (d : list (string * A)) :
  In x (map fst (dict_set k v d)) -> x = k \/ In x (map fst d).
Proof.
  induction d as [|[k' v'] d IH]; simpl.
  - intros [H | []]. auto.
  - destruct (String.eqb k' k); simpl; intros [H | H]; auto.
    apply IH in H. tauto.
Qed.

Lemma dict_del_keys {A : Type} (k x : string) (d : list (string * A)) :
  In x (map fst (dict_del k d)) -> In x (map fst d).
Proof.
  unfold dict_del. rewrite !in_map_iff.
  intros (e & He & Hin). apply List.filter_In in Hin. exists e. tauto.
Qed.

Lemma tl_keys {A : Type} (x : string) (d : list (string * A)) :
  In x (map fst (tl d)) -> In x (map fst d).
Proof. destruct d; simpl; auto. Qed.

Lemma expiring_get_config (d : Expiring.ExpiringDict) (k : string) (t : Q) :
  Expiring.max_age (Expiring.get d k t).1 = Expiring.max_age d /\
  Expiring.max_len (Expiring.get d k t).1 = Expiring.max_len d.
Proof.
  unfold Expiring.get. destruct (dict_get k (Expiring.entries d)) as [[v t0]|]; [| auto].
  destruct (Expiring.fresh d t t0); auto.
Qed.

Lemma expiring_get_keys (d : Expiring.ExpiringDict) (k x : string) (t : Q) :
  In x (map fst (Expiring.entries (Expiring.get d k t).1)) ->
  In x (map fst (Expiring.entries d)).
Proof.
  unfold Expiring.get. destruct (dict_get k (Expiring.entries d)) as [[v t0]|]; [| auto].
  destruct (Expiring.fresh d t t0); simpl; [auto | apply dict_del_keys].
Qed.

Lemma expiring_set_config (d : Expiring.ExpiringDict) (k : string) (v : ClientResponse) (t : Q) :
  Expiring.max_age (Expiring.set d k v t) = Expiring.max_age d /\
  Expiring.max_len (Expiring.set d k v t) = Expiring.max_len d.
Proof.
  unfold Expiring.set.
  destruct (length (Expiring.entries d) =? Expiring.max_len d)%nat; [| auto].
  destruct (expiring_get_config d k t) as [Ha Hl].
  destruct (Expiring.get d k t) as [d' [x|]]; simpl in *; auto.
Qed.

(** A stored value is there, with the clock reading of the store. *)
Lemma expiring_set_lookup (d : Expiring.ExpiringDict) (k : string) (v : ClientResponse) (t : Q) :
  dict_get k (Expiring.entries (Expiring.set d k v t)) = Some (v, t).
Proof. unfold Expiring.set. simpl. apply dict_get_set_eq. Qed.

Lemma expiring_set_keys (d : Expiring.ExpiringDict) (k x : string) (v : ClientResponse) (t : Q) :
  In x (map fst (Expiring.entries (Expiring.set d k v t))) ->
  x = k \/ In x (map fst (Expiring.entries d)).
Proof.
  unfold Expiring.set. simpl. intros H. apply dict_set_keys in H as [H | H]; [auto |].
  right. destruct (length (Expiring.entries d) =? Expiring.max_len d)%nat; [| assumption].
  pose proof (expiring_get_keys d k x t) as Hg.
  destruct (Expiring.get d k t) as [d' [y|]]; simpl in *.
  - apply Hg. eapply dict_del_keys, H.
  - apply Hg. eapply tl_keys, H.
Qed.

(** A lookup inside the age limit returns the stored value and leaves the
    cache as it is; one at or past the limit finds nothing. *)
Lemma expiring_get_fresh (d : Expiring.ExpiringDict) (k : string) (v : ClientResponse) (t0 t : Q) :
  dict_get k (Expiring.entries d) = Some (v, t0) ->
  (t - t0 < Expiring.max_age d)%Q ->
  Expiring.get d k t = (d, Some v).
Proof.
  intros Hk Hage. unfold Expiring.get, Expiring.fresh. rewrite Hk.
  destruct (Qle_bool (Expiring.max_age d) (t - t0)) eqn:E; [| reflexivity].
  apply Qle_bool_true in E. lra.
Qed.

Lemma expiring_get_expired (d : Expiring.ExpiringDict) (k : string) (v : ClientResponse) (t0 t : Q) :
  dict_get k (Expiring.entries d) = Some (v, t0) ->
  (Expiring.max_age d <= t - t0)%Q ->
  (Expiring.get d k t).2 = None.
Proof.
  intros Hk Hage. unfold Expiring.get, Expiring.fresh. rewrite Hk.
  destruct (Qle_bool (Expiring.max_age d) (t - t0)) eqn:E; [reflexivity |].
  apply Qle_bool_false in E. lra.
Qed.

(** ** Response processing *)

(** The events of response processing: the store of a GET, the log line of
    the call, and log lines after it. *)
Lemma process_events (bot : DataBot) (resp : ClientResponse) (m k : string)
    (raw : bool) (msg : string) (t : Q) :
  exists logs,
    (process_http_response bot resp m k raw msg t).1.2 =
      (if String.eqb m "get" then [CacheSet k resp] else []) ++ Log INFO msg :: logs /\
    Forall (fun e => exists lvl s, e = Log lvl s) logs.
Proof.
  unfold process_http_response.
  destruct (String.eqb m "get"), raw; simpl.
  1,3: exists []; split; [reflexivity | constructor].
  all: destruct (json resp) as [v| | |n]; simpl;
    try destruct (setitem "status_code" (PInt (status resp)) (munchify v));
    simpl; eexists; (split; [reflexivity |]); repeat constructor; eauto.
Qed.

Lemma process_transport_calls (bot : DataBot) (resp : ClientResponse) (m k : string)
    (raw : bool) (msg : string) (t : Q) :
  transport_calls (process_http_response bot resp m k raw msg t).1.2 = [].
Proof.
  destruct (process_events bot resp m k raw msg t) as (logs & -> & Hlogs).
  unfold transport_calls. rewrite List.filter_app.
  assert (List.filter is_transport logs = []) as Hl.
  { induction Hlogs as [|e l (lvl & s & ->) _ IH]; simpl; auto. }
  destruct (String.eqb m "get"); simpl; exact Hl.
Qed.

Lemma process_cache_set (bot : DataBot) (resp : ClientResponse) (m k : string)
    (raw : bool) (msg : string) (t : Q) (e : event) :
  In e (process_http_response bot resp m k raw msg t).1.2 ->
  is_cache_event e = true ->
  String.eqb m "get" = true /\ e = CacheSet k resp.
Proof.
  destruct (process_events bot resp m k raw msg t) as (logs & -> & Hlogs).
  intros Hin Hc. apply in_app_or in Hin as [Hin | [<- | Hin]].
  - destruct (String.eqb m "get"); [| contradiction].
    destruct Hin as [<- | []]. auto.
  - discriminate.
  - rewrite List.Forall_forall in Hlogs. destruct (Hlogs _ Hin) as (lvl & s & ->).
    discriminate.
Qed.

(** The result of response processing depends on the response object, the
    method and the mode only. *)
Lemma process_result_eq (bot bot' : DataBot) (resp : ClientResponse) (m k k' : string)
    (raw : bool) (msg msg' : string) (t t' : Q) :
  (process_http_response bot resp m k raw msg t).2 =
  (process_http_response bot' resp m k' raw msg' t').2.
Proof.
  unfold process_http_response.
  destruct (String.eqb m "get"), raw; simpl; try reflexivity.
  all: destruct (json resp) as [v| | |n]; simpl; try reflexivity;
    try destruct (setitem "status_code" (PInt (status resp)) (munchify v)); reflexivity.
Qed.

(** ** The call past the rate-limit stage *)

Lemma set_cache_same (b : DataBot) : set_cache b (http_cache b) = b.
Proof. destruct b; reflexivity. Qed.

(** What [http_call] does once the stage has let the call through, with
    the cache key and the lookup named. *)
Lemma http_call_past_stage (bot : DataBot) (r : request) (w : world) (b : DataBot) :
  rate_limit_stage bot (url r) (now w) = (b, None) ->
  let key := cache_key_of r in
  let m := PyStr.lower (method r) in
  let look := use_cache r && is_get r in
  let c := if look then (Expiring.get (http_cache b) key (now_get w)).1 else http_cache b in
  let cached := if look then (Expiring.get (http_cache b) key (now_get w)).2 else None in
  let evg := if look then [CacheGet key] else [] in
  let sent := Transport (PyStr.lower m) (normalized_url (url r)) in
  http_call bot r w =
    match cached with
    | Some resp =>
        let p := process_http_response (set_cache b c) resp m key (get_raw_response r)
                   ("Retrieving cached HTTP GET response (" +:+ key +:+ ")") (now_set w) in
        (p.1.1, evg ++ p.1.2, p.2)
    | None =>
        match transport w with
        | Fails name => (set_cache b c, evg ++ [sent], Raise (Propagated name))
        | Responds resp =>
            let p := process_http_response (set_cache b c) resp m key (get_raw_response r)
                       ("Making HTTP " +:+ PyStr.upper m +:+ " request to URL: " +:+ key)
                       (now_set w) in
            (p.1.1, (evg ++ [sent]) ++ p.1.2, p.2)
        end
    end.
Proof.
  intros Hst. unfold http_call. rewrite Hst.
  unfold cache_key_of, is_get, normalized_url. cbv zeta.
  set (u := PyStr.replace "+" "%2b" (PyStr.replace " " "%20" (url r))).
  set (m := PyStr.lower (method r)).
  set (key := match params r with
              | [] => PyStr.lower u
              | _ :: _ => PyStr.lower u +:+ "?" +:+ Url.urlencode (params r)
              end).
  destruct (use_cache r && String.eqb m "get").
  - destruct (Expiring.get (http_cache b) key (now_get w)) as [c [resp|]]; cbn [fst snd].
    + destruct (process_http_response _ _ _ _ _ _ _) as [[b' ev'] res]. reflexivity.
    + destruct (transport w) as [resp|name]; [| reflexivity].
      destruct (process_http_response _ _ _ _ _ _ _) as [[b' ev'] res]. reflexivity.
  - rewrite set_cache_same.
    destruct (transport w) as [resp|name]; [| reflexivity].
    destruct (process_http_response _ _ _ _ _ _ _) as [[b' ev'] res]. reflexivity.
Qed.

(** The stage either refuses, and the call stops there, or lets through. *)
Lemma stage_cases (bot : DataBot) (r : request) (w : world) :
  (exists e, (rate_limit_stage bot (url r) (now w)).2 = Some e /\
             http_call bot r w = ((rate_limit_stage bot (url r) (now w)).1, [], Raise e)) \/
  (exists b, rate_limit_stage bot (url r) (now w) = (b, None) /\ http_cache b = http_cache bot).
Proof.
  pose proof (rate_limit_stage_cache bot (url r) (now w)) as Hc.
  destruct (rate_limit_stage bot (url r) (now w)) as [b [e|]] eqn:Hst.
  - left. exists e. split; [reflexivity |].
    rewrite <- Hst. apply http_call_refused. now rewrite Hst.
  - right. exists b. auto.
Qed.

(** The events and the cache of a call, in full up to the log lines. *)
Lemma http_call_effects (bot : DataBot) (r : request) (w : world) :
  let key := cache_key_of r in
  let sent := Transport (PyStr.lower (PyStr.lower (method r))) (normalized_url (url r)) in
  let c := if passes bot r w && looks_up r
           then (Expiring.get (http_cache bot) key (now_get w)).1
           else http_cache bot in
  exists logs,
    Forall is_log logs /\
    (http_call bot r w).1.2 =
      (if passes bot r w && looks_up r then [CacheGet key] else []) ++
      (if passes bot r w then
         match cache_hit bot r w with Some _ => [] | None => [sent] end
       else []) ++
      match processed_response bot r w with
      | Some resp => (if is_get r then [CacheSet key resp] else []) ++ logs
      | None => []
      end /\
    http_cache (http_call bot r w).1.1 =
      match processed_response bot r w with
      | Some resp => if is_get r then Expiring.set c key resp (now_set w) else c
      | None => c
      end /\
    (forall resp, processed_response bot r w = Some resp ->
       (http_call bot r w).2 =
         (process_http_response bot resp (PyStr.lower (method r)) key
            (get_raw_response r) "" 0).2).
Proof.
  intros key sent c. subst c. unfold processed_response, cache_hit, passes.
  destruct (stage_cases bot r w) as [(e & Hst & Heq) | (b & Hst & Hc)].
  - rewrite Heq, Hst. exists []. cbn [fst snd andb].
    pose proof (rate_limit_stage_cache bot (url r) (now w)).
    repeat split; auto. discriminate.
  - rewrite (http_call_past_stage _ _ _ _ Hst), Hst. cbn [fst snd andb]. cbv zeta.
    rewrite Hc. fold key. unfold looks_up. fold (is_get r).
    destruct (use_cache r && is_get r) eqn:Hlook.
    + destruct (Expiring.get (http_cache bot) key (now_get w)) as [c [resp|]] eqn:Hg;
        cbn [fst snd].
      * match goal with |- context [process_http_response ?b ?x ?m ?k ?g ?l ?t] =>
          destruct (process_events b x m k g l t) as (logs & Hev & Hlogs);
          pose proof (process_cache b x m k g l t) as Hpc;
          pose proof (process_result_eq b bot x m k key g l "" t 0) as Hres
        end.
        exists (Log INFO ("Retrieving cached HTTP GET response (" +:+ key +:+ ")") :: logs).
        cbn [fst snd]. rewrite Hev, Hpc. fold (is_get r). cbn [fst snd http_cache set_cache app].
        split; [| split; [| split]].
        -- constructor; [unfold is_log; eauto | exact Hlogs].
        -- destruct (is_get r); reflexivity.
        -- destruct (is_get r); reflexivity.
        -- intros resp' Hr. inversion Hr; subst resp'. exact Hres.
      * destruct (transport w) as [resp|name].
        -- match goal with |- context [process_http_response ?b ?x ?m ?k ?g ?l ?t] =>
             destruct (process_events b x m k g l t) as (logs & Hev & Hlogs);
             pose proof (process_cache b x m k g l t) as Hpc;
             pose proof (process_result_eq b bot x m k key g l "" t 0) as Hres;
             exists (Log INFO l :: logs)
           end.
           cbn [fst snd]. rewrite Hev, Hpc. fold (is_get r). cbn [fst snd http_cache set_cache app].
           split; [| split; [| split]].
           ++ constructor; [unfold is_log; eauto | exact Hlogs].
           ++ destruct (is_get r); reflexivity.
           ++ destruct (is_get r); reflexivity.
           ++ intros resp' Hr. inversion Hr; subst resp'. exact Hres.
        -- exists []. cbn [fst snd http_cache set_cache app].
           repeat split; auto. discriminate.
    + replace (set_cache b (http_cache bot)) with b
        by (rewrite <- Hc; symmetry; apply set_cache_same).
      destruct (transport w) as [resp|name].
      * match goal with |- context [process_http_response ?b ?x ?m ?k ?g ?l ?t] =>
          destruct (process_events b x m k g l t) as (logs & Hev & Hlogs);
          pose proof (process_cache b x m k g l t) as Hpc;
          pose proof (process_result_eq b bot x m k key g l "" t 0) as Hres;
          exists (Log INFO l :: logs)
        end.
        cbn [fst snd]. rewrite Hev, Hpc. cbn [http_cache set_cache]. rewrite ?Hc. fold (is_get r). cbn [fst snd http_cache set_cache app].
        split; [| split; [| split]].
        -- constructor; [unfold is_log; eauto | exact Hlogs].
        -- destruct (is_get r); reflexivity.
        -- destruct (is_get r); reflexivity.
        -- intros resp' Hr. inversion Hr; subst resp'. exact Hres.
      * exists []. cbn [fst snd http_cache set_cache app].
        repeat split; auto. discriminate.
Qed.

(** ** The cache key *)

Lemma is_log_no_key (e : event) : is_log e -> cache_event_key e = None.
Proof. intros (lvl & s & ->). reflexivity. Qed.

(** Every cache event of a call carries the cache key of the request; a
    lookup is made only by a GET that asked for it, and a store only by a
    GET. *)
Lemma http_call_cache_events (bot : DataBot) (r : request) (w : world) (e : event) :
  In e (http_call bot r w).1.2 ->
  is_cache_event e = true ->
  (e = CacheGet (cache_key_of r) /\ looks_up r = true) \/
  (exists resp, e = CacheSet (cache_key_of r) resp /\ is_get r = true /\
                processed_response bot r w = Some resp).
Proof.
  destruct (http_call_effects bot r w) as (logs & Hlogs & -> & _).
  intros Hin Hc. apply in_app_or in Hin as [Hin | Hin].
  - left. destruct (passes bot r w && looks_up r) eqn:E; [| contradiction].
    apply andb_true_iff in E as [_ E]. destruct Hin as [<- | []]. auto.
  - apply in_app_or in Hin as [Hin | Hin].
    + destruct (passes bot r w); [| contradiction].
      destruct (cache_hit bot r w); [contradiction |].
      destruct Hin as [<- | []]. discriminate.
    + destruct (processed_response bot r w) as [resp|]; [| contradiction].
      apply in_app_or in Hin as [Hin | Hin].
      * destruct (is_get r) eqn:Hget; [| contradiction].
        destruct Hin as [<- | []]. right. eauto.
      * rewrite List.Forall_forall in Hlogs.
        destruct (Hlogs _ Hin) as (lvl & s & ->). discriminate.
Qed.

Lemma append_empty_r (s : string) : s +:+ "" = s.
Proof.
  induction s as [|c s IH]; [reflexivity |].
  change (String c (s +:+ "") = String c s). now rewrite IH.
Qed.

(** Sorting leaves sorted items as they are. *)
Lemma sorted_items_id (l : list (string * string)) :
  Sorted key_leb l -> sorted_items l = l.
Proof.
  induction 1 as [|a l Hs IH Hd]; [reflexivity |].
  unfold sorted_items in *. simpl. rewrite IH.
  destruct Hd as [|b l' Hab]; [reflexivity |].
  simpl. unfold key_leb in Hab. now rewrite Hab.
Qed.

(** C2, as the code has it: the key of every cache lookup and store of a
    call is the lower-cased normalized URL, followed for a non-empty
    [params] by a question mark and the URL-encoded items in the iteration
    order of the mapping. It is the key with sorted items when the mapping
    iterates in sorted order. *)
Theorem cache_key_in_iteration_order (bot : DataBot) (r : request) (w : world) :
  (forall e k, In e (http_call bot r w).1.2 ->
               cache_event_key e = Some k -> k = cache_key_of r) /\
  cache_key_of r =
    PyStr.lower (normalized_url (url r)) +:+
    match params r with
    | [] => ""
    | _ :: _ =>
        "?" +:+ PyStr.join "&"
                  (map (fun kv => Url.quote_plus kv.1 +:+ "=" +:+ Url.quote_plus kv.2)
                       (params r))
    end /\
  (Sorted key_leb (params r) -> cache_key_of r = spec_cache_key r).
Proof.
  split; [| split].
  - intros e k Hin Hk.
    assert (is_cache_event e = true) as Hc by (destruct e; simpl in Hk; try discriminate; reflexivity).
    destruct (http_call_cache_events bot r w e Hin Hc) as [[-> _] | (resp & -> & _)];
      simpl in Hk; congruence.
  - unfold cache_key_of. destruct (params r); [| reflexivity].
    now rewrite append_empty_r.
  - intros Hs. unfold cache_key_of, spec_cache_key.
    now rewrite sorted_items_id.
Qed.

Lemma cache_key_in_iteration_order_witness :
  cache_key_of giphy_request_swapped = spec_cache_key giphy_request_swapped.
Proof.
  apply (cache_key_in_iteration_order (DataBot_init sample_config) giphy_request_swapped
           (world_at 0 sample_response)).
  repeat constructor.
Defined.

(** C2 as stated fails: two requests whose [params] hold the same items in
    another order look the cache up under different keys, and the key of
    the first is not the one with sorted items. *)
Lemma cache_key_sorted_counterexample :
  Permutation (params giphy_request) (params giphy_request_swapped) /\
  url giphy_request = url giphy_request_swapped /\
  (http_call (DataBot_init sample_config) giphy_request (world_at 0 sample_response)).1.2 !! 0%nat =
    Some (CacheGet "http://api.giphy.com/v1/gifs/search?q=cat&limit=5") /\
  (http_call (DataBot_init sample_config) giphy_request_swapped (world_at 0 sample_response)).1.2 !! 0%nat =
    Some (CacheGet "http://api.giphy.com/v1/gifs/search?limit=5&q=cat") /\
  cache_key_of giphy_request <> cache_key_of giphy_request_swapped /\
  cache_key_of giphy_request <> spec_cache_key giphy_request.
Proof.
  split; [apply perm_swap |]. split; [reflexivity |].
  split; [vm_compute; reflexivity |]. split; [vm_compute; reflexivity |].
  split; vm_compute; discriminate.
Qed.

(** ** The cache and the method *)

Lemma http_call_cache_keys (bot : DataBot) (r : request) (w : world) (k : string) :
  In k (cache_keys (http_call bot r w).1.1) ->
  In k (cache_keys bot) \/ (is_get r = true /\ k = cache_key_of r).
Proof.
  unfold cache_keys.
  destruct (http_call_effects bot r w) as (logs & _ & _ & -> & _).
  set (c := if passes bot r w && looks_up r
            then (Expiring.get (http_cache bot) (cache_key_of r) (now_get w)).1
            else http_cache bot).
  assert (In k (map fst (Expiring.entries c)) ->
          In k (map fst (Expiring.entries (http_cache bot)))) as Hc.
  { subst c. destruct (passes bot r w && looks_up r); [| auto].
    apply expiring_get_keys. }
  destruct (processed_response bot r w) as [resp|]; [| auto].
  destruct (is_get r); [| auto].
  intros H. apply expiring_set_keys in H as [-> | H]; auto.
Qed.

Lemma run_cache_keys (calls : list (request * world)) (k : string) :
  forall bot,
    In k (cache_keys (run bot calls).1) ->
    In k (cache_keys bot) \/
    exists r w, In (r, w) calls /\ is_get r = true /\ cache_key_of r = k.
Proof.
  induction calls as [|[r w] rest IH]; intros bot H; [auto |].
  rewrite run_cons in H. cbn [fst] in H.
  apply IH in H as [H | (r' & w' & Hin & Hg & Hk)].
  - apply http_call_cache_keys in H as [H | [Hg ->]]; [auto |].
    right. exists r, w. split; [left; reflexivity | auto].
  - right. exists r', w'. split; [right; assumption | auto].
Qed.

(** C5: a call whose method is not GET, whatever [use_cache] says, leaves
    the cache as it is and makes no lookup and no store; and every key of
    the cache of a bot is the cache key of a GET call made on it. *)
Theorem non_get_bypasses_cache (bot : DataBot) (r : request) (w : world) :
  is_get r = false ->
  http_cache (http_call bot r w).1.1 = http_cache bot /\
  Forall (fun e => is_cache_event e = false) (http_call bot r w).1.2 /\
  (forall cfg calls k,
      In k (cache_keys (run (DataBot_init cfg) calls).1) ->
      exists r' w', In (r', w') calls /\ is_get r' = true /\ cache_key_of r' = k).
Proof.
  intros Hget. split; [| split].
  - destruct (http_call_effects bot r w) as (logs & _ & _ & -> & _).
    unfold looks_up. rewrite Hget, andb_false_r, andb_false_r.
    destruct (processed_response bot r w); reflexivity.
  - apply List.Forall_forall. intros e Hin.
    destruct (is_cache_event e) eqn:Hc; [| reflexivity].
    destruct (http_call_cache_events bot r w e Hin Hc)
      as [[_ Hl] | (resp & _ & Hg & _)].
    + unfold looks_up in Hl. rewrite Hget, andb_false_r in Hl. discriminate.
    + congruence.
  - intros cfg calls k H. apply run_cache_keys in H as [H | H]; [| exact H].
    contradiction.
Qed.

Lemma non_get_bypasses_cache_witness :
  http_cache (http_call sample_bot example_post (world_at 1 sample_response)).1.1 =
    http_cache sample_bot /\
  Forall (fun e => is_cache_event e = false)
    (http_call sample_bot example_post (world_at 1 sample_response)).1.2.
Proof.
  destruct (non_get_bypasses_cache sample_bot example_post
              (world_at 1 sample_response)) as (H1 & H2 & _).
  - reflexivity.
  - split; assumption.
Defined.

(** ** Malformed bodies *)



(** ** Cached responses *)

Lemma http_call_cache_config (bot : DataBot) (r : request) (w : world) :
  Expiring.max_age (http_cache (http_call bot r w).1.1) = Expiring.max_age (http_cache bot) /\
  Expiring.max_len (http_cache (http_call bot r w).1.1) = Expiring.max_len (http_cache bot).
Proof.
  destruct (http_call_effects bot r w) as (logs & _ & _ & -> & _).
  set (c := if passes bot r w && looks_up r
            then (Expiring.get (http_cache bot) (cache_key_of r) (now_get w)).1
            else http_cache bot).
  assert (Expiring.max_age c = Expiring.max_age (http_cache bot) /\
          Expiring.max_len c = Expiring.max_len (http_cache bot)) as [Ha Hl].
  { subst c. destruct (passes bot r w && looks_up r); [| auto].
    apply expiring_get_config. }
  destruct (processed_response bot r w) as [resp|]; [| auto].
  destruct (is_get r); [| auto].
  destruct (expiring_set_config c (cache_key_of r) resp (now_set w)) as [-> ->]. auto.
Qed.

(** The transport calls of a call: one on a miss that got past the stage,
    none otherwise. *)
Lemma http_call_transport_calls (bot : DataBot) (r : request) (w : world) :
  transport_calls (http_call bot r w).1.2 =
    if passes bot r w then
      match cache_hit bot r w with
      | Some _ => []
      | None => [Transport (PyStr.lower (PyStr.lower (method r))) (normalized_url (url r))]
      end
    else [].
Proof.
  destruct (http_call_effects bot r w) as (logs & Hlogs & -> & _).
  assert (List.filter is_transport logs = []) as Hl.
  { induction Hlogs as [|e l (lvl & s & ->) _ IH]; simpl; auto. }
  unfold transport_calls. rewrite !List.filter_app.
  assert (List.filter is_transport
            match processed_response bot r w with
            | Some resp => (if is_get r then [CacheSet (cache_key_of r) resp] else []) ++ logs
            | None => []
            end = []) as ->.
  { destruct (processed_response bot r w); [| reflexivity].
    rewrite List.filter_app, Hl. destruct (is_get r); reflexivity. }
  rewrite app_nil_r.
  destruct (passes bot r w); cbn [andb].
  - destruct (looks_up r), (cache_hit bot r w); reflexivity.
  - reflexivity.
Qed.

(** After a GET whose response was processed, the cache holds the response
    under the key of the request, stamped with the clock reading of the
    store. *)
Lemma processed_get_entry (bot : DataBot) (r : request) (w : world) (resp : ClientResponse) :
  is_get r = true ->
  processed_response bot r w = Some resp ->
  cache_entry (http_call bot r w).1.1 (cache_key_of r) = Some (resp, now_set w).
Proof.
  intros Hget Hp. unfold cache_entry.
  destruct (http_call_effects bot r w) as (logs & _ & _ & -> & _).
  rewrite Hp, Hget. apply expiring_set_lookup.
Qed.

(** A lookup of an entry younger than the age limit is a hit, and one of an
    entry that has reached the limit is a miss. *)
Lemma cache_hit_fresh (bot : DataBot) (r : request) (w : world) (resp : ClientResponse) (t0 : Q) :
  looks_up r = true ->
  cache_entry bot (cache_key_of r) = Some (resp, t0) ->
  (now_get w - t0 < Expiring.max_age (http_cache bot))%Q ->
  cache_hit bot r w = Some resp.
Proof.
  intros Hl He Hage. unfold cache_hit. rewrite Hl.
  now rewrite (expiring_get_fresh _ _ _ _ _ He Hage).
Qed.

Lemma cache_hit_expired (bot : DataBot) (r : request) (w : world) (resp : ClientResponse) (t0 : Q) :
  cache_entry bot (cache_key_of r) = Some (resp, t0) ->
  (Expiring.max_age (http_cache bot) <= now_get w - t0)%Q ->
  cache_hit bot r w = None.
Proof.
  intros He Hage. unfold cache_hit. destruct (looks_up r); [| reflexivity].
  exact (expiring_get_expired _ _ _ _ _ He Hage).
Qed.

Lemma looks_up_get (r : request) : looks_up r = true -> is_get r = true.
Proof. unfold looks_up. intros H. now apply andb_true_iff in H. Qed.

Lemma processed_of_hit (bot : DataBot) (r : request) (w : world) (resp : ClientResponse) :
  passes bot r w = true -> cache_hit bot r w = Some resp ->
  processed_response bot r w = Some resp.
Proof. intros Hp Hh. unfold processed_response. now rewrite Hp, Hh. Qed.

(** C10: every GET call whose response reaches [process_http_response],
    with or without [use_cache], stores the response object under its cache
    key with the clock reading of that moment; a cache hit therefore
    re-inserts the entry with a new timestamp, and a later lookup is a hit
    as long as it comes within the age limit of the latest call, however
    old the original response is. Response processing writes nothing else:
    the histories, the policies and the bounds of the cache stay. *)
Theorem get_response_always_stored (bot : DataBot) (r : request) (w : world)
    (resp : ClientResponse) :
  is_get r = true ->
  processed_response bot r w = Some resp ->
  let bot' := (http_call bot r w).1.1 in
  In (CacheSet (cache_key_of r) resp) (http_call bot r w).1.2 /\
  cache_entry bot' (cache_key_of r) = Some (resp, now_set w) /\
  (forall w',
      looks_up r = true ->
      passes bot' r w' = true ->
      (now_get w' - now_set w < Expiring.max_age (http_cache bot))%Q ->
      cache_hit bot' r w' = Some resp /\
      transport_calls (http_call bot' r w').1.2 = [] /\
      cache_entry (http_call bot' r w').1.1 (cache_key_of r) = Some (resp, now_set w')) /\
  (forall b x m k raw msg t,
      let b' := (process_http_response b x m k raw msg t).1.1 in
      url_rate_limit_history b' = url_rate_limit_history b /\
      rate_limits b' = rate_limits b /\
      Expiring.max_age (http_cache b') = Expiring.max_age (http_cache b) /\
      Expiring.max_len (http_cache b') = Expiring.max_len (http_cache b) /\
      (String.eqb m "get" = false -> http_cache b' = http_cache b)).
Proof.
  intros Hget Hp bot'. subst bot'.
  pose proof (processed_get_entry _ _ _ _ Hget Hp) as Hentry.
  split; [| split; [exact Hentry | split]].
  - destruct (http_call_effects bot r w) as (logs & _ & -> & _).
    rewrite Hp, Hget. apply in_or_app. right. apply in_or_app. right. left. reflexivity.
  - intros w' Hl Hpass Hage.
    destruct (http_call_cache_config bot r w) as [Hma _].
    rewrite <- Hma in Hage.
    pose proof (cache_hit_fresh _ _ _ _ _ Hl Hentry Hage) as Hhit.
    split; [exact Hhit | split].
    + rewrite http_call_transport_calls, Hpass, Hhit. reflexivity.
    + apply processed_get_entry; [assumption |]. now apply processed_of_hit.
  - intros b x m k raw msg t b'. subst b'.
    destruct (process_history b x m k raw msg t) as [Hh Hr].
    pose proof (process_cache b x m k raw msg t) as Hc.
    repeat split; try assumption.
    + rewrite Hc. destruct (String.eqb m "get"); [| reflexivity].
      apply expiring_set_config.
    + rewrite Hc. destruct (String.eqb m "get"); [| reflexivity].
      apply expiring_set_config.
    + intros Hm. now rewrite Hc, Hm.
Qed.

Lemma get_response_always_stored_witness :
  cache_entry sample_bot (cache_key_of giphy_request) = Some (sample_response, 0%Q) /\
  cache_entry refreshed_bot (cache_key_of giphy_request) = Some (sample_response, 500%Q) /\
  (Expiring.max_age (http_cache sample_bot) <= 1000 - 0)%Q /\
  transport_calls (http_call refreshed_bot giphy_request (world_at 1000 sample_response)).1.2 = [].
Proof.
  assert (is_get giphy_request = true) as Hget by reflexivity.
  assert (processed_response sample_bot giphy_request (world_at 500 sample_response) =
          Some sample_response) as Hp by (vm_compute; reflexivity).
  destruct (get_response_always_stored sample_bot giphy_request
              (world_at 500 sample_response) sample_response Hget Hp)
    as (_ & Hentry & Hnext & _).
  split; [vm_compute; reflexivity |]. split; [exact Hentry |].
  split; [vm_compute; discriminate |].
  apply (Hnext (world_at 1000 sample_response)).
  - reflexivity.
  - vm_compute. reflexivity.
  - vm_compute. reflexivity.
Defined.

Lemma stored_is_processed (bot : DataBot) (r : request) (w : world) (resp : ClientResponse) :
  In (CacheSet (cache_key_of r) resp) (http_call bot r w).1.2 ->
  is_get r = true /\ processed_response bot r w = Some resp.
Proof.
  intros Hin.
  destruct (http_call_cache_events bot r w _ Hin eq_refl)
    as [[Hd _] | (resp' & Hd & Hg & Hp)]; [discriminate |].
  injection Hd as <-. auto.
Qed.

(** C4, as the code has it: after a GET call with [use_cache] whose
    response was stored under its cache key, an identical call that gets
    past the rate-limit stage and looks the cache up within the age limit
    of the store is answered with the stored response, returns what the
    first call returned and makes no transport call, so that the two calls
    make one transport call when the first made one; once the age limit has
    elapsed since the store, the lookup finds nothing and the call that got
    past the stage makes a transport call. *)
Theorem cached_get_served_when_admitted (bot : DataBot) (r : request) (w1 w2 : world)
    (resp : ClientResponse) :
  looks_up r = true ->
  In (CacheSet (cache_key_of r) resp) (http_call bot r w1).1.2 ->
  let bot1 := (http_call bot r w1).1.1 in
  passes bot1 r w2 = true ->
  ((now_get w2 - now_set w1 < Expiring.max_age (http_cache bot))%Q ->
     processed_response bot1 r w2 = Some resp /\
     (http_call bot1 r w2).2 = (http_call bot r w1).2 /\
     transport_calls (http_call bot1 r w2).1.2 = [] /\
     transport_calls ((http_call bot r w1).1.2 ++ (http_call bot1 r w2).1.2) =
       transport_calls (http_call bot r w1).1.2 /\
     (length (transport_calls (http_call bot r w1).1.2) <= 1)%nat) /\
  ((Expiring.max_age (http_cache bot) <= now_get w2 - now_set w1)%Q ->
     cache_hit bot1 r w2 = None /\
     transport_calls (http_call bot1 r w2).1.2 =
       [Transport "get" (normalized_url (url r))]).
Proof.
  intros Hl Hin bot1 Hpass. subst bot1.
  destruct (stored_is_processed _ _ _ _ Hin) as [Hget Hp].
  pose proof (processed_get_entry _ _ _ _ Hget Hp) as Hentry.
  destruct (http_call_cache_config bot r w1) as [Hma _].
  split; intros Hage; rewrite <- Hma in Hage.
  - pose proof (cache_hit_fresh _ _ _ _ _ Hl Hentry Hage) as Hhit.
    pose proof (processed_of_hit _ _ _ _ Hpass Hhit) as Hp2.
    assert (transport_calls (http_call (http_call bot r w1).1.1 r w2).1.2 = []) as Hnone
      by (rewrite http_call_transport_calls, Hpass, Hhit; reflexivity).
    repeat split.
    + exact Hp2.
    + destruct (http_call_effects bot r w1) as (_ & _ & _ & _ & Hr1).
      destruct (http_call_effects (http_call bot r w1).1.1 r w2) as (_ & _ & _ & _ & Hr2).
      rewrite (Hr1 _ Hp), (Hr2 _ Hp2). apply process_result_eq.
    + exact Hnone.
    + unfold transport_calls in *. now rewrite List.filter_app, Hnone, app_nil_r.
    + rewrite http_call_transport_calls.
      destruct (passes bot r w1); [| simpl; lia].
      destruct (cache_hit bot r w1); simpl; lia.
  - pose proof (cache_hit_expired _ _ w2 _ _ Hentry Hage) as Hmiss.
    split; [exact Hmiss |].
    rewrite http_call_transport_calls, Hpass, Hmiss.
    unfold is_get in Hget. apply String.eqb_eq in Hget. rewrite Hget. reflexivity.
Qed.

Lemma cached_get_served_when_admitted_witness :
  (http_call sample_bot giphy_request (world_at 5 sample_response)).2 =
    (http_call (DataBot_init sample_config) giphy_request (world_at 0 sample_response)).2 /\
  transport_calls (http_call sample_bot giphy_request (world_at 5 sample_response)).1.2 = [].
Proof.
  assert (looks_up giphy_request = true) as Hl by reflexivity.
  assert (In (CacheSet (cache_key_of giphy_request) sample_response)
            (http_call (DataBot_init sample_config) giphy_request
               (world_at 0 sample_response)).1.2) as Hin.
  { vm_compute. right. right. left. reflexivity. }
  assert (passes (http_call (DataBot_init sample_config) giphy_request
                    (world_at 0 sample_response)).1.1
            giphy_request (world_at 5 sample_response) = true) as Hpass
    by (vm_compute; reflexivity).
  destruct (cached_get_served_when_admitted (DataBot_init sample_config) giphy_request
              (world_at 0 sample_response) (world_at 5 sample_response)
              sample_response Hl Hin Hpass) as [Hfresh _].
  destruct Hfresh as (_ & Hres & Hnone & _).
  - vm_compute. reflexivity.
  - split.
    + rewrite <- Hres. vm_compute. reflexivity.
    + vm_compute. reflexivity.
Defined.

(** C4 as stated fails where the host has a policy: the identical call
    made five seconds after the store, well within the age limit of the
    cache, raises the rate-limit error instead of returning the stored
    response; and with a cache that forgets after ten seconds, the call made
    at fifteen seconds finds the entry expired and still makes no transport
    call, because the stage refuses it. *)
Lemma cached_get_rate_limited_counterexample :
  let first := http_call (DataBot_init sample_config) ipinfo_request
                 (world_at 0 sample_response) in
  let second := http_call first.1.1 ipinfo_request (world_at 5 sample_response) in
  let first' := http_call (DataBot_init short_cache_config) ipinfo_request
                  (world_at 0 sample_response) in
  let third := http_call first'.1.1 ipinfo_request (world_at 15 sample_response) in
  In (CacheSet (cache_key_of ipinfo_request) sample_response) first.1.2 /\
  first.2 = Return (PMunch [("status_code", PInt 200)]) /\
  (now_get (world_at 5 sample_response) - now_set (world_at 0 sample_response) <
     Expiring.max_age (http_cache (DataBot_init sample_config)))%Q /\
  second.2 = Raise (HTTPRateLimit 25) /\
  In (CacheSet (cache_key_of ipinfo_request) sample_response) first'.1.2 /\
  (Expiring.max_age (http_cache (DataBot_init short_cache_config)) <=
     now_get (world_at 15 sample_response) - now_set (world_at 0 sample_response))%Q /\
  third.2 = Raise (HTTPRateLimit 15) /\
  transport_calls third.1.2 = [].
Proof.
  cbv zeta.
  split; [vm_compute; right; right; left; reflexivity |].
  split; [vm_compute; reflexivity |].
  split; [vm_compute; reflexivity |].
  split; [vm_compute; reflexivity |].
  split; [vm_compute; right; right; left; reflexivity |].
  split; [vm_compute; discriminate |].
  split; vm_compute; reflexivity.
Qed.

(** ** The plugin loader *)

Lemma bot_eta (bot : Plugin.Bot) :
  {| Plugin.accepts := Plugin.accepts bot; Plugin.commands := Plugin.commands bot ++ [] |} = bot.
Proof. destruct bot. simpl. now rewrite app_nil_r. Qed.

(** The inner loop registers, in order, the bindings that pass the name
    test, up to the first one that the bot rejects. *)
Lemma register_items_spec (dict : list (string * Plugin.pyobj)) :
  forall bot : Plugin.Bot,
    exists done rest,
      map snd (List.filter (fun b => Plugin.name_ok b.1) dict) = done ++ rest /\
      (Plugin.register_items bot dict).1 =
        {| Plugin.accepts := Plugin.accepts bot;
           Plugin.commands := Plugin.commands bot ++ done |} /\
      Forall (fun o => Plugin.accepts bot o = true) done /\
      match (Plugin.register_items bot dict).2 with
      | None => rest = []
      | Some e =>
          e = Propagated "TypeError" /\
          exists o rest', rest = o :: rest' /\ Plugin.accepts bot o = false
      end.
Proof.
  induction dict as [|[name func] dict IH]; intros bot.
  - exists [], []. simpl. rewrite bot_eta. repeat split; constructor.
  - simpl. destruct (Plugin.name_ok name) eqn:Hn; [| apply IH].
    unfold Plugin.add_command. destruct (Plugin.accepts bot func) eqn:Ha.
    + destruct (IH {| Plugin.accepts := Plugin.accepts bot;
                      Plugin.commands := Plugin.commands bot ++ [func] |})
        as (done & rest & Hq & Hb & Hacc & Hout).
      exists (func :: done), rest. simpl in *.
      split; [now rewrite Hq |]. split; [| split].
      * rewrite Hb. now rewrite <- app_assoc.
      * constructor; assumption.
      * exact Hout.
    + exists [], (func :: map snd (List.filter (fun b => Plugin.name_ok b.1) dict)).
      simpl. rewrite bot_eta. repeat split; try constructor. eauto.
Qed.

(** The same for the outer loop, which an import that raises stops too. *)
Lemma load_modules_spec (import_module : string -> option (list (string * Plugin.pyobj)))
    (names : list string) :
  forall bot : Plugin.Bot,
    exists done rest,
      Plugin.qualifying import_module names = done ++ rest /\
      (Plugin.load_modules import_module bot names).1 =
        {| Plugin.accepts := Plugin.accepts bot;
           Plugin.commands := Plugin.commands bot ++ done |} /\
      Forall (fun o => Plugin.accepts bot o = true) done /\
      match (Plugin.load_modules import_module bot names).2 with
      | None => rest = []
      | Some e =>
          (e = Propagated "TypeError" /\
           exists o rest', rest = o :: rest' /\ Plugin.accepts bot o = false) \/
          (e = Propagated "ImportError" /\
           exists m, In m names /\ import_module m = None)
      end.
Proof.
  induction names as [|m names IH]; intros bot.
  - exists [], []. simpl. rewrite bot_eta. repeat split; constructor.
  - simpl. destruct (import_module m) as [imported|] eqn:Hm; simpl.
    + destruct (register_items_spec imported bot) as (d1 & r1 & Hq1 & Hb1 & Ha1 & Ho1).
      destruct (Plugin.register_items bot imported) as [bot1 [e|]]; simpl in *.
      * destruct Ho1 as (-> & o & r' & -> & Hrej).
        exists d1, (o :: r' ++ Plugin.qualifying import_module names).
        rewrite Hq1, <- app_assoc. repeat split; try assumption.
        left. split; [reflexivity |]. eauto.
      * subst r1. rewrite app_nil_r in Hq1.
        destruct (IH bot1) as (d2 & r2 & Hq2 & Hb2 & Ha2 & Ho2).
        subst bot1. simpl in *.
        exists (d1 ++ d2), r2. rewrite Hq1, Hq2, <- !app_assoc.
        split; [reflexivity |]. split; [| split].
        -- rewrite Hb2. now rewrite <- app_assoc.
        -- apply Forall_app. split; assumption.
        -- destruct (Plugin.load_modules _ _ names).2 as [e|]; [| assumption].
           destruct Ho2 as [Ho2 | (-> & m' & Hin & Hnone)]; [left; assumption |].
           right. split; [reflexivity |]. exists m'. auto.
    + exists [], (Plugin.qualifying import_module names).
      rewrite bot_eta. split; [reflexivity |]. split; [reflexivity |].
      split; [constructor |].
      right. split; [reflexivity |]. exists m. auto.
Qed.

(** C9, as the code has it: the loader imports the module of every regular
    file of the plugins directory that matches [*.py] and does not end in
    [__init__.py], and hands to [add_command], in order, every top-level
    binding of each module whose name does not start with two underscores
    and is not [commands], whether it is callable or not. What the bot has
    registered is always a prefix of these bindings, and all of them when
    every import succeeds and the bot takes each one. *)
Theorem load_plugins_registers_by_name (fs : Plugin.filesystem)
    (import_module : string -> option (list (string * Plugin.pyobj))) (bot : Plugin.Bot) :
  let names := Plugin.module_names (Plugin.glob_py fs) in
  let loaded := Plugin.load_plugins fs import_module bot in
  (exists done rest,
      Plugin.qualifying import_module names = done ++ rest /\
      Plugin.commands loaded.1 = Plugin.commands bot ++ done /\
      (loaded.2 = None -> rest = [])) /\
  (Forall (fun m => is_Some (import_module m)) names ->
   Forall (fun o => Plugin.accepts bot o = true) (Plugin.qualifying import_module names) ->
   loaded.2 = None /\
   Plugin.commands loaded.1 = Plugin.commands bot ++ Plugin.qualifying import_module names).
Proof.
  intros names loaded. subst loaded. unfold Plugin.load_plugins. cbv zeta. fold names.
  destruct (load_modules_spec import_module names bot) as (done & rest & Hq & Hb & Ha & Ho).
  split.
  - exists done, rest. split; [assumption |]. split; [now rewrite Hb |].
    intros Hnone. now rewrite Hnone in Ho.
  - intros Himp Hacc.
    destruct (Plugin.load_modules import_module bot names).2 as [e|] eqn:He.
    + exfalso. destruct Ho as [(_ & o & r' & -> & Hrej) | (_ & m & Hin & Hnone)].
      * rewrite Hq in Hacc. apply Forall_app in Hacc as [_ Hacc].
        apply Forall_cons_iff in Hacc as [Hacc _]. congruence.
      * rewrite List.Forall_forall in Himp. destruct (Himp _ Hin) as [x Hx]. congruence.
    + subst rest. rewrite app_nil_r in Hq. split; [reflexivity |].
      now rewrite Hb, Hq.
Qed.

Lemma load_plugins_registers_by_name_witness :
  (Plugin.load_plugins Plugin.example_fs Plugin.example_import Plugin.lenient_bot).2 = None /\
  Plugin.commands
    (Plugin.load_plugins Plugin.example_fs Plugin.example_import Plugin.lenient_bot).1 =
  Plugin.commands Plugin.lenient_bot ++
  Plugin.qualifying Plugin.example_import
    (Plugin.module_names (Plugin.glob_py Plugin.example_fs)).
Proof.
  apply (load_plugins_registers_by_name Plugin.example_fs Plugin.example_import
           Plugin.lenient_bot).
  - repeat constructor. vm_compute. eauto.
  - vm_compute. repeat constructor.
Defined.

(** C9 as stated fails on the module of [plugins/giphy.py]: a bot that
    takes what it is given ends up with the module [random], which is not
    callable, among its commands; and a bot that takes commands only raises
    at that binding, so that the callables after it are skipped. *)
Lemma load_plugins_callable_counterexample :
  let names := Plugin.module_names (Plugin.glob_py Plugin.example_fs) in
  let random := {| Plugin.origin := "random"; Plugin.obj_kind := Plugin.KModule |} in
  let setup := {| Plugin.origin := "plugins.giphy.setup"; Plugin.obj_kind := Plugin.KFunction |} in
  let lenient := Plugin.load_plugins Plugin.example_fs Plugin.example_import Plugin.lenient_bot in
  let strict := Plugin.load_plugins Plugin.example_fs Plugin.example_import Plugin.strict_bot in
  names = ["plugins.giphy"] /\
  Plugin.callable random = false /\
  In random (Plugin.commands lenient.1) /\
  Plugin.commands lenient.1 <> Plugin.spec_commands Plugin.example_import names /\
  In setup (Plugin.spec_commands Plugin.example_import names) /\
  strict.2 = Some (Propagated "TypeError") /\
  Plugin.commands strict.1 = [].
Proof.
  cbv zeta.
  split; [vm_compute; reflexivity |].
  split; [reflexivity |].
  split; [vm_compute; left; reflexivity |].
  split; [vm_compute; discriminate |].
  split; [vm_compute; right; right; left; reflexivity |].
  split; vm_compute; reflexivity.
Qed.

(** ** Sample evaluations *)

Example netloc_of_giphy :
  Url.netloc (url giphy_request) = "api.giphy.com".
Proof. reflexivity. Qed.

Example urlencode_escapes :
  Url.urlencode [("q", "a b"); ("Key", "x/y")] = "q=a+b&Key=x%2Fy".
Proof. reflexivity. Qed.

Example cache_key_of_giphy :
  cache_key_of giphy_request = "http://api.giphy.com/v1/gifs/search?q=cat&limit=5".
Proof. reflexivity. Qed.

Example first_giphy_call :
  (http_call (DataBot_init sample_config) giphy_request (world_at 0 sample_response)).1.2 =
    [ CacheGet "http://api.giphy.com/v1/gifs/search?q=cat&limit=5";
      Transport "get" "http://api.giphy.com/v1/gifs/search";
      CacheSet "http://api.giphy.com/v1/gifs/search?q=cat&limit=5" sample_response;
      Log INFO "Making HTTP GET request to URL: http://api.giphy.com/v1/gifs/search?q=cat&limit=5" ].
Proof. vm_compute. reflexivity. Qed.

Example sample_bot_timestamps :
  timestamps sample_bot "api.giphy.com" = [0%Q] /\
  timestamps sample_bot "ipinfo.io" = [0%Q].
Proof. split; vm_compute; reflexivity. Qed.

Example plugin_modules :
  Plugin.module_names (Plugin.glob_py Plugin.example_fs) = ["plugins.giphy"].
Proof. reflexivity. Qed.

(** * Further properties of the facade *)

(** ** The rate limiter over time *)

(** The sliding window does what it is for: among the calls to a host that
    a freshly constructed bot has admitted, no more than the quota lie in
    the window that ends at the latest clock reading, or at any later
    time. *)
Theorem at_most_quota_per_window (cfg : file_config) (t0 T : Q)
    (calls : list (request * world)) (host : string) (quota : nat) (time_window : Q) :
  monotone t0 calls = true ->
  rate_limits (DataBot_init cfg) !! host = Some (quota, time_window) ->
  (last_reading t0 calls <= T)%Q ->
  (length (List.filter (recent T time_window)
             (admitted_times host calls (run (DataBot_init cfg) calls).2)) <= quota)%nat.
Proof.
  intros Hm Hpol HT.
  pose proof (run_recent cfg host quota time_window T calls t0 (DataBot_init cfg)
                (init_ok cfg t0) Hm Hpol HT) as Hrec.
  assert (timestamps (DataBot_init cfg) host = []) as Hinit.
  { unfold timestamps. simpl. now rewrite lookup_empty. }
  rewrite Hinit in Hrec. simpl in Hrec. rewrite <- Hrec.
  etransitivity; [apply filter_length_le |].
  pose proof (run_ok cfg calls t0 _ (init_ok cfg t0) Hm) as [Hlim Hh].
  unfold timestamps.
  destruct (url_rate_limit_history (run (DataBot_init cfg) calls).1 !! host) as [d|] eqn:Hd;
    [| simpl; lia].
  destruct (Hh _ _ Hd) as (q & tw & Hp & _ & Hlen & _).
  rewrite Hlim, Hpol in Hp. injection Hp as <- <-. exact Hlen.
Qed.

Lemma py_max_ge (a b : Q) : (a <= py_max a b)%Q.
Proof.
  unfold py_max. destruct (Qle_bool b a) eqn:E; [lra |].
  apply Qle_bool_false in E. lra.
Qed.

(** What a refusal tells about the state: the host has a policy and a
    full history, whose oldest timestamp gives the wait. *)
Lemma refusal_inv (cfg : file_config) (bot : DataBot) (r : request) (w : world) (wait : Q) :
  bot_sized cfg bot ->
  (http_call bot r w).2 = Raise (HTTPRateLimit wait) ->
  exists quota time_window oldest rest,
    rate_limits bot !! Url.netloc (url r) = Some (quota, time_window) /\
    timestamps bot (Url.netloc (url r)) = oldest :: rest /\
    (length (oldest :: rest) <= quota)%nat /\
    (now w - oldest < time_window)%Q /\
    wait = py_max (time_window - (now w - oldest)) 0 /\
    (http_call bot r w).1.1 = bot.
Proof.
  intros [_ Hh] Hres.
  pose proof (http_call_admitted bot r w) as Hadm. rewrite Hres in Hadm. simpl in Hadm.
  destruct (rate_limit_stage bot (url r) (now w)).2 as [e|] eqn:Hst; [| discriminate].
  rewrite (http_call_refused _ _ _ _ Hst) in Hres |- *.
  simpl in Hres. injection Hres as ->. cbn [fst].
  destruct (rate_limits bot !! Url.netloc (url r)) as [[q tw]|] eqn:Hpol.
  - rewrite (rate_limit_stage_limited _ _ _ _ _ Hpol) in Hst |- *.
    rewrite timestamps_default in Hst |- *.
    destruct (Nat.leb_spec q (length (drop_expired (now w) tw
                (timestamps bot (Url.netloc (url r))))))
      as [Hfull | Hroom]; [| discriminate].
    cbn [fst snd] in *.
    assert (length (timestamps bot (Url.netloc (url r))) <= q)%nat as Hlen.
    { unfold timestamps.
      destruct (url_rate_limit_history bot !! Url.netloc (url r)) as [d|] eqn:Hd;
        [| simpl; lia].
      destruct (Hh _ _ Hd) as (q' & tw' & Hp' & _ & Hl). congruence. }
    rewrite drop_expired_full in Hst |- * by lia.
    pose proof (drop_expired_full (now w) tw (timestamps bot (Url.netloc (url r)))
                  ltac:(lia)) as Hkept.
    destruct (timestamps bot (Url.netloc (url r))) as [|oldest rest] eqn:Hts;
      [discriminate |].
    injection Hst as <-.
    exists q, tw, oldest, rest. repeat split; try assumption; try reflexivity.
    + exact (drop_expired_head _ _ _ _ _ Hkept).
    + unfold timestamps in Hts.
      destruct (url_rate_limit_history bot !! Url.netloc (url r)) as [d|] eqn:Hd;
        [| discriminate].
      simpl. rewrite <- Hts, deque_eta, insert_id by assumption.
      destruct bot; reflexivity.
  - rewrite rate_limit_stage_unlimited in Hst by assumption. discriminate.
Qed.

(** Waiting as long as the rate-limit error says is enough: when a call is
    refused with a wait, the same call made once that wait has passed, with
    no call to the host in between, is admitted. *)
Theorem retry_after_wait_is_admitted (cfg : file_config) (bot : DataBot)
    (r : request) (w w' : world) (wait : Q) :
  constructed cfg bot ->
  (http_call bot r w).2 = Raise (HTTPRateLimit wait) ->
  (now w + wait <= now w')%Q ->
  admitted (http_call (http_call bot r w).1.1 r w').2 = true.
Proof.
  intros Hc Hres Hlater. apply constructed_sized in Hc as Hs.
  destruct (refusal_inv _ _ _ _ _ Hs Hres)
    as (q & tw & oldest & rest & Hpol & Hts & Hlen & _ & -> & ->).
  rewrite http_call_admitted, (rate_limit_stage_limited _ _ _ _ _ Hpol).
  rewrite timestamps_default, Hts.
  pose proof (py_max_ge (tw - (now w - oldest)) 0) as Hge.
  simpl drop_expired.
  destruct (Qle_bool tw (now w' - oldest)) eqn:E.
  - pose proof (drop_expired_length (now w') tw rest) as Hk. simpl in Hlen.
    destruct (Nat.leb_spec q (length (drop_expired (now w') tw rest))); [lia | reflexivity].
  - apply Qle_bool_false in E. lra.
Qed.

Lemma retry_after_wait_is_admitted_witness :
  admitted
    (http_call (http_call sample_bot ipinfo_request (world_at 5 sample_response)).1.1
       ipinfo_request (world_at 30 sample_response)).2 = true.
Proof.
  apply (retry_after_wait_is_admitted sample_config sample_bot ipinfo_request
           (world_at 5 sample_response) (world_at 30 sample_response) 25
           sample_bot_constructed).
  - vm_compute. reflexivity.
  - vm_compute. discriminate.
Defined.

Lemma at_most_quota_per_window_witness :
  (length (List.filter (recent 0 30)
             (admitted_times "ipinfo.io" sample_calls
                (run (DataBot_init sample_config) sample_calls).2)) <= 1)%nat.
Proof.
  apply (at_most_quota_per_window sample_config 0 0 sample_calls "ipinfo.io" 1 30).
  - reflexivity.
  - vm_compute. reflexivity.
  - vm_compute. discriminate.
Defined.

(** The index into an empty history is never taken: every policy allows at
    least one call, so no call on a bot, in whatever state, ends in
    [IndexError]. *)
Theorem http_call_never_index_error (cfg : file_config) (bot : DataBot)
    (r : request) (w : world) :
  constructed cfg bot ->
  (http_call bot r w).2 <> Raise IndexError.
Proof.
  intros Hc Hres. apply constructed_sized in Hc as [Hlim _].
  pose proof (http_call_admitted bot r w) as Hadm. rewrite Hres in Hadm. simpl in Hadm.
  destruct (rate_limit_stage bot (url r) (now w)).2 as [e|] eqn:Hst; [| discriminate].
  rewrite (http_call_refused _ _ _ _ Hst) in Hres.
  simpl in Hres. injection Hres as ->.
  destruct (rate_limits bot !! Url.netloc (url r)) as [[q tw]|] eqn:Hpol.
  - assert (1 <= q)%nat as Hq.
    { rewrite Hlim in Hpol. eapply init_policy_positive, Hpol. }
    rewrite (rate_limit_stage_limited _ _ _ _ _ Hpol) in Hst.
    destruct (Nat.leb_spec q (length (drop_expired (now w) tw
                (items (default (deque_new q)
                   (url_rate_limit_history bot !! Url.netloc (url r)))))))
      as [Hfull | Hroom]; [| discriminate].
    cbn [snd] in Hst.
    destruct (drop_expired (now w) tw _); [simpl in Hfull; lia | discriminate].
  - rewrite rate_limit_stage_unlimited in Hst by assumption. discriminate.
Qed.

Lemma http_call_never_index_error_witness :
  (http_call sample_bot ipinfo_request (world_at 5 sample_response)).2 <> Raise IndexError.
Proof.
  apply (http_call_never_index_error sample_config sample_bot ipinfo_request
           (world_at 5 sample_response) sample_bot_constructed).
Defined.

(** ** The shapes of the result *)

Lemma dict_get_set_ne {A : Type} (k k' : string) (v : A) (d : list (string * A)) :
  k' <> k -> dict_get k' (dict_set k v d) = dict_get k' d.
Proof.
  intros Hne. induction d as [|[a x] d IH]; simpl.
  - destruct (String.eqb_spec k k'); [congruence | reflexivity].
  - destruct (String.eqb_spec a k) as [-> | Hak]; simpl.
    + destruct (String.eqb_spec k k'); [congruence | reflexivity].
    + destruct (String.eqb a k'); [reflexivity | exact IH].
Qed.

Lemma dict_get_munchified (k : string) (d : list (string * pyval)) :
  dict_get k (map (fun kv => let (a, v) := kv : string * pyval in (a, munchify v)) d) =
  option_map munchify (dict_get k d).
Proof.
  induction d as [|[a x] d IH]; simpl; [reflexivity |].
  destruct (String.eqb a k); [reflexivity | exact IH].
Qed.

(** In raw mode a call whose response is processed returns the status and
    the text of that response and nothing else, whether the response came
    from the cache or from the transport and whatever its body parses to. *)
Theorem raw_mode_returns_status_and_text (bot : DataBot) (r : request) (w : world)
    (resp : ClientResponse) :
  get_raw_response r = true ->
  processed_response bot r w = Some resp ->
  (http_call bot r w).2 =
    Return (PDict [("status", PInt (status resp)); ("text", PStr (text resp))]) /\
  forall s, ~ In (Log ERROR s) (http_call bot r w).1.2.
Proof.
  intros Hraw Hp. split.
  - destruct (http_call_effects bot r w) as (logs & _ & _ & _ & Hr).
    rewrite (Hr _ Hp), Hraw. unfold process_http_response.
    destruct (String.eqb _ "get"); reflexivity.
  - intros s Hin.
    assert (forall b' x m' k' msg' t',
               ~ In (Log ERROR s) (process_http_response b' x m' k' true msg' t').1.2) as Hno.
    { intros b' x m' k' msg' t'. unfold process_http_response.
      destruct (String.eqb m' "get"); cbn [fst snd app]; intros H;
        repeat (destruct H as [H | H]); try discriminate; contradiction. }
    destruct (stage_cases bot r w) as [(e & _ & Heq) | (b & Hst & _)].
    + rewrite Heq in Hin. contradiction.
    + rewrite (http_call_past_stage _ _ _ _ Hst), Hraw in Hin. cbv zeta in Hin.
      destruct (use_cache r && is_get r);
        [destruct (Expiring.get (http_cache b) (cache_key_of r) (now_get w)) as [c [x|]] |];
        cbn [fst snd] in Hin;
        try (destruct (transport w) as [x|name]); cbn [fst snd] in Hin;
        repeat (apply in_app_or in Hin as [Hin | Hin]);
        try (eapply Hno; exact Hin);
        repeat (destruct Hin as [Hin | Hin]); try discriminate; contradiction.
Qed.

Lemma raw_mode_returns_status_and_text_witness :
  (http_call sample_bot example_post (world_at 1 broken_response)).2 =
    Return (PDict [("status", PInt 502); ("text", PStr "<html>Bad Gateway</html>")]).
Proof.
  apply (raw_mode_returns_status_and_text sample_bot example_post
           (world_at 1 broken_response) broken_response).
  - reflexivity.
  - vm_compute. reflexivity.
Defined.

(** A body that parses to a JSON object comes back as a [Munch] whose
    [status_code] is the status of the response object, also when the body
    has a [status_code] of its own; every other key keeps its value. *)
Theorem status_code_is_http_status (bot : DataBot) (resp : ClientResponse)
    (m k msg : string) (t : Q) (d : list (string * pyval)) :
  json resp = JsonValue (PDict d) ->
  exists d',
    (process_http_response bot resp m k false msg t).2 = Return (PMunch d') /\
    dict_get "status_code" d' = Some (PInt (status resp)) /\
    (forall key, key <> "status_code" ->
                 dict_get key d' = option_map munchify (dict_get key d)) /\
    forall lvl s, In (Log lvl s) (process_http_response bot resp m k false msg t).1.2 ->
                  lvl = INFO.
Proof.
  intros Hjson.
  exists (dict_set "status_code" (PInt (status resp))
            (map (fun kv => let (a, v) := kv : string * pyval in (a, munchify v)) d)).
  unfold process_http_response. rewrite Hjson.
  split; [| split; [| split]].
  - destruct (String.eqb m "get"); reflexivity.
  - apply dict_get_set_eq.
  - intros key Hne. rewrite dict_get_set_ne by assumption. apply dict_get_munchified.
  - intros lvl s. destruct (String.eqb m "get"); cbn [fst snd munchify setitem app];
      intros Hin; repeat (destruct Hin as [Hin | Hin]); try discriminate;
      try contradiction; congruence.
Qed.

Lemma status_code_is_http_status_witness :
  exists d',
    (process_http_response sample_bot
       {| status := 200; text := "{}";
          json := JsonValue (PDict [("status_code", PInt 7); ("data", PList [])]) |}
       "get" "k" false "msg" 0).2 = Return (PMunch d') /\
    dict_get "status_code" d' = Some (PInt 200).
Proof.
  destruct (status_code_is_http_status sample_bot
              {| status := 200; text := "{}";
                 json := JsonValue (PDict [("status_code", PInt 7); ("data", PList [])]) |}
              "get" "k" "msg" 0 [("status_code", PInt 7); ("data", PList [])] eq_refl)
    as (d' & H1 & H2 & _).
  exists d'. split; assumption.
Defined.

(** A body that parses to a list or to a bare value, and not to an object,
    comes back as it is, without a [status_code]; the failure to add one is
    logged as a warning and nothing is raised. *)
Theorem non_mapping_body_returned_as_is (bot : DataBot) (resp : ClientResponse)
    (m k msg : string) (t : Q) (v : pyval) :
  json resp = JsonValue v ->
  (forall d, v <> PDict d) -> (forall d, v <> PMunch d) ->
  (process_http_response bot resp m k false msg t).2 = Return (munchify v) /\
  setitem "status_code" (PInt (status resp)) (munchify v) = None /\
  In (Log WARNING "Failed to add status_code to API response")
     (process_http_response bot resp m k false msg t).1.2.
Proof.
  intros Hjson Hd Hm.
  assert (setitem "status_code" (PInt (status resp)) (munchify v) = None) as Hset.
  { destruct v; try reflexivity; [edestruct Hd | edestruct Hm]; reflexivity. }
  unfold process_http_response. rewrite Hjson.
  destruct (String.eqb m "get"); cbn [fst snd]; rewrite Hset; cbn [fst snd];
    (split; [reflexivity |]); (split; [reflexivity |]);
    apply in_or_app; right; left; reflexivity.
Qed.

Lemma non_mapping_body_returned_as_is_witness :
  (process_http_response sample_bot
     {| status := 200; text := "[1]"; json := JsonValue (PList [PInt 1]) |}
     "get" "k" false "msg" 0).2 = Return (PList [PInt 1]).
Proof.
  apply (non_mapping_body_returned_as_is sample_bot
           {| status := 200; text := "[1]"; json := JsonValue (PList [PInt 1]) |}
           "get" "k" "msg" 0 (PList [PInt 1]) eq_refl); discriminate.
Defined.

(** ** Transport failures *)

Lemma stage_timestamps_sized (cfg : file_config) (bot : DataBot) (u : string) (now : Q)
    (quota : nat) (time_window : Q) :
  bot_sized cfg bot ->
  rate_limits bot !! Url.netloc u = Some (quota, time_window) ->
  (rate_limit_stage bot u now).2 = None ->
  timestamps (rate_limit_stage bot u now).1 (Url.netloc u) =
    drop_expired now time_window (timestamps bot (Url.netloc u)) ++ [now].
Proof.
  intros [_ Hh] Hpol.
  rewrite (rate_limit_stage_limited _ _ _ _ _ Hpol).
  destruct (Nat.leb_spec quota (length (drop_expired now time_window
              (items (default (deque_new quota)
                 (url_rate_limit_history bot !! Url.netloc u))))))
    as [Hfull | Hroom]; [discriminate |].
  intros _. unfold timestamps at 1. cbn [fst set_history url_rate_limit_history].
  rewrite lookup_insert_eq, timestamps_default in *.
  rewrite deque_append_room; [reflexivity |]. cbn [maxlen items].
  unfold timestamps in *.
  destruct (url_rate_limit_history bot !! Url.netloc u) as [d|] eqn:Hd; simpl in *.
  - destruct (Hh _ _ Hd) as (q' & tw' & Hp' & Hm & _). congruence.
  - assumption.
Qed.

(** A transport call that fails makes the call fail with the transport's
    exception; nothing is stored in the cache, and the call has still taken
    its place in the window of a host with a policy. *)
Theorem transport_failure_propagates (cfg : file_config) (bot : DataBot)
    (r : request) (w : world) (name : string) :
  constructed cfg bot ->
  passes bot r w = true ->
  cache_hit bot r w = None ->
  transport w = Fails name ->
  (http_call bot r w).2 = Raise (Propagated name) /\
  (forall k v, ~ In (CacheSet k v) (http_call bot r w).1.2) /\
  (forall k, In k (cache_keys (http_call bot r w).1.1) -> In k (cache_keys bot)) /\
  (forall quota time_window,
      rate_limits bot !! Url.netloc (url r) = Some (quota, time_window) ->
      timestamps (http_call bot r w).1.1 (Url.netloc (url r)) =
        drop_expired (now w) time_window (timestamps bot (Url.netloc (url r))) ++ [now w]).
Proof.
  intros Hc Hpass Hmiss Hfail. apply constructed_sized in Hc.
  assert (processed_response bot r w = None) as Hp.
  { unfold processed_response. now rewrite Hpass, Hmiss, Hfail. }
  split; [| split; [| split]].
  - destruct (stage_cases bot r w) as [(e & Hst & _) | (b & Hst & Hcache)].
    + unfold passes in Hpass. rewrite Hst in Hpass. discriminate.
    + rewrite (http_call_past_stage _ _ _ _ Hst). cbv zeta.
      unfold cache_hit, looks_up in Hmiss. rewrite Hcache.
      destruct (use_cache r && is_get r); [rewrite Hmiss |]; now rewrite Hfail.
  - intros k v Hin.
    destruct (http_call_cache_events bot r w _ Hin eq_refl)
      as [[Hd _] | (resp & _ & _ & Hp')]; congruence.
  - intros k. unfold cache_keys.
    destruct (http_call_effects bot r w) as (logs & _ & _ & -> & _).
    rewrite Hp. destruct (passes bot r w && looks_up r); [| auto].
    apply expiring_get_keys.
  - intros quota tw Hpol. rewrite timestamps_http_call.
    apply (stage_timestamps_sized cfg bot (url r) (now w) quota tw); try assumption.
    unfold passes in Hpass.
    destruct (rate_limit_stage bot (url r) (now w)).2; [discriminate | reflexivity].
Qed.

Lemma transport_failure_propagates_witness :
  (http_call sample_bot giphy_request
     {| now := 700; now_get := 700; now_set := 700; transport := Fails "ClientConnectorError" |}).2 =
    Raise (Propagated "ClientConnectorError") /\
  timestamps
    (http_call sample_bot giphy_request
       {| now := 700; now_get := 700; now_set := 700;
          transport := Fails "ClientConnectorError" |}).1.1 "api.giphy.com" = [700%Q].
Proof.
  destruct (transport_failure_propagates sample_config sample_bot giphy_request
              {| now := 700; now_get := 700; now_set := 700;
                 transport := Fails "ClientConnectorError" |}
              "ClientConnectorError" sample_bot_constructed)
    as (Hres & _ & _ & Hts).
  - vm_compute. reflexivity.
  - vm_compute. reflexivity.
  - reflexivity.
  - split; [exact Hres |].
    change "api.giphy.com" with (Url.netloc (url giphy_request)).
    rewrite (Hts 3%nat 60%Q); vm_compute; reflexivity.
Defined.

(** ** The URL sent and the URL cached *)

Lemma append_cons (c : ascii) (s b : string) : String c s +:+ b = String c (s +:+ b).
Proof. reflexivity. Qed.

Lemma contains_append (c : ascii) (a b : string) :
  PyStr.contains c (a +:+ b) = PyStr.contains c a || PyStr.contains c b.
Proof.
  induction a as [|x a IH]; [reflexivity |].
  rewrite append_cons. simpl. rewrite IH. now rewrite orb_assoc.
Qed.

(** Replacing a character by a text that holds none of some character
    brings none in. *)
Lemma contains_replace (c c' : ascii) (rep s : string) :
  PyStr.contains c' rep = false ->
  PyStr.contains c' s = false \/ c' = c ->
  PyStr.contains c' (PyStr.replace c rep s) = false.
Proof.
  intros Hrep. induction s as [|a s IH]; intros Hs; [reflexivity |].
  simpl in *. destruct (Ascii.eqb_spec a c) as [-> | Hac].
  - rewrite contains_append, Hrep. simpl. apply IH.
    destruct Hs as [Hs | Hs]; [| auto]. apply orb_false_iff in Hs. tauto.
  - simpl. destruct Hs as [Hs | ->].
    + apply orb_false_iff in Hs as [Ha Hs]. rewrite Ha. simpl. auto.
    + destruct (Ascii.eqb_spec a c); [contradiction |]. simpl. auto.
Qed.

(** Whatever URL the caller passes, the URL that reaches the transport
    holds no space and no plus sign. *)
Theorem transport_url_is_escaped (bot : DataBot) (r : request) (w : world)
    (m u : string) :
  In (Transport m u) (http_call bot r w).1.2 ->
  u = normalized_url (url r) /\
  PyStr.contains " " u = false /\
  PyStr.contains "+" u = false.
Proof.
  intros Hin.
  assert (u = normalized_url (url r)) as ->.
  { destruct (http_call_effects bot r w) as (logs & Hlogs & Hev & _).
    rewrite Hev in Hin. clear Hev.
    apply in_app_or in Hin as [Hin | Hin].
    - destruct (passes bot r w && looks_up r); [| contradiction].
      destruct Hin as [Hin | []]. discriminate.
    - apply in_app_or in Hin as [Hin | Hin].
      + destruct (passes bot r w); [| contradiction].
        destruct (cache_hit bot r w); [contradiction |].
        destruct Hin as [Hin | []]. now injection Hin.
      + destruct (processed_response bot r w) as [resp|]; [| contradiction].
        apply in_app_or in Hin as [Hin | Hin].
        * destruct (is_get r); [| contradiction].
          destruct Hin as [Hin | []]. discriminate.
        * rewrite List.Forall_forall in Hlogs.
          destruct (Hlogs _ Hin) as (lvl & s & Hs). discriminate. }
  split; [reflexivity |]. unfold normalized_url. split.
  - apply contains_replace; [reflexivity |]. left.
    apply contains_replace; [reflexivity | auto].
  - apply contains_replace; [reflexivity | auto].
Qed.

Lemma transport_url_is_escaped_witness :
  PyStr.contains " "
    (normalized_url (url {| method := "get"; url := "http://example.org/a b+c";
                            params := []; use_cache := false;
                            get_raw_response := false |})) = false.
Proof.
  apply (transport_url_is_escaped (DataBot_init sample_config)
           {| method := "get"; url := "http://example.org/a b+c";
              params := []; use_cache := false; get_raw_response := false |}
           (world_at 0 sample_response) "get"
           (normalized_url "http://example.org/a b+c")).
  vm_compute. left. reflexivity.
Defined.

Lemma lower_append (a b : string) :
  PyStr.lower (a +:+ b) = PyStr.lower a +:+ PyStr.lower b.
Proof.
  induction a as [|x a IH]; [reflexivity |].
  rewrite append_cons. unfold PyStr.lower in *. simpl.
  rewrite append_cons. now rewrite IH.
Qed.

(** Lower-casing commutes with the replacement of a character that is no
    letter. *)
Lemma lower_replace (c : ascii) (rep s : string) :
  (forall a, Ascii.eqb (PyStr.lower_char a) c = Ascii.eqb a c) ->
  PyStr.lower (PyStr.replace c rep s) =
  PyStr.replace c (PyStr.lower rep) (PyStr.lower s).
Proof.
  intros Hc. induction s as [|a s IH]; [reflexivity |].
  unfold PyStr.lower in *. simpl. rewrite Hc.
  destruct (Ascii.eqb a c).
  - fold (PyStr.lower (rep +:+ PyStr.replace c rep s)).
    rewrite lower_append. unfold PyStr.lower. now rewrite IH.
  - simpl. now rewrite IH.
Qed.

Lemma lower_char_space (a : ascii) :
  Ascii.eqb (PyStr.lower_char a) " " = Ascii.eqb a " ".
Proof. destruct a as [[] [] [] [] [] [] [] []]; reflexivity. Qed.

Lemma lower_char_plus (a : ascii) :
  Ascii.eqb (PyStr.lower_char a) "+" = Ascii.eqb a "+".
Proof. destruct a as [[] [] [] [] [] [] [] []]; reflexivity. Qed.

(** For URLs made of ASCII characters the cache does not tell apart those
    that differ in the case of their letters: two such requests with the
    same [params] whose URLs are equal up to case are cached under one
    key. *)
Theorem cache_key_ignores_ascii_url_case (r1 r2 : request) :
  ascii_text (url r1) = true ->
  ascii_text (url r2) = true ->
  PyStr.lower (url r1) = PyStr.lower (url r2) ->
  params r1 = params r2 ->
  cache_key_of r1 = cache_key_of r2.
Proof.
  intros _ _ Hurl Hparams. unfold cache_key_of, normalized_url.
  rewrite !(lower_replace "+") by exact lower_char_plus.
  rewrite !(lower_replace " ") by exact lower_char_space.
  now rewrite Hurl, Hparams.
Qed.

Lemma cache_key_ignores_ascii_url_case_witness :
  cache_key_of giphy_request =
  cache_key_of {| method := "GET"; url := "HTTP://API.GIPHY.COM/v1/gifs/Search";
                  params := [("q", "cat"); ("limit", "5")];
                  use_cache := true; get_raw_response := false |}.
Proof.
  apply (cache_key_ignores_ascii_url_case giphy_request
           {| method := "GET"; url := "HTTP://API.GIPHY.COM/v1/gifs/Search";
              params := [("q", "cat"); ("limit", "5")];
              use_cache := true; get_raw_response := false |});
    reflexivity.
Defined.

(** * The database URL *)

(** The password never reaches the console: what [generate_db_url] logs is
    the same whatever the password is. *)
Theorem db_password_is_not_logged (c : Db.postgres) (p1 p2 : string) :
  (Db.generate_db_url (Db.Value (Db.with_password c p1))).2 =
  (Db.generate_db_url (Db.Value (Db.with_password c p2))).2.
Proof.
  unfold Db.generate_db_url, Db.with_password. simpl.
  destruct (Db.user c), (Db.name c), (Db.host c), (Db.port c); reflexivity.
Qed.

(** [generate_db_url] gives a URL exactly when every attribute it reads is
    there. When a read raises, it returns [None] and warns with the text of
    the exception of the first read that raised, in the order section,
    user, password, name, host, port; when none does, it writes one debug
    line and returns the URL, which ends in the database name when there is
    one. *)
Theorem db_url_needs_every_attribute (database : Db.attribute Db.postgres) :
  (forall text,
     Db.first_error database = Some text ->
     Db.generate_db_url database =
       (None, [Db.Warning ("Could not generate DB URL for POSTGRES: " +:+ text)])) /\
  (Db.first_error database = None ->
     exists c u p n h q,
       database = Db.Value c /\
       Db.user c = Db.Value u /\ Db.password c = Db.Value p /\ Db.name c = Db.Value n /\
       Db.host c = Db.Value h /\ Db.port c = Db.Value q /\
       (Db.generate_db_url database).1 =
         Some (let base := "postgres" +:+ "://" +:+ u +:+ ":" +:+ p +:+ "@" +:+ h +:+ ":" +:+ q in
               if String.eqb n "" then base else base +:+ "/" +:+ n) /\
       (Db.generate_db_url database).2 =
         [Db.Debug ("Generated DB URL: " +:+
                    "postgres" +:+ "://" +:+ u +:+ ":" +:+ "********" +:+ "@" +:+ h +:+ ":" +:+ q)]).
Proof.
  unfold Db.first_error, Db.generate_db_url.
  destruct database as [[ou op on oh oq]|text0].
  - cbn [Db.user Db.password Db.name Db.host Db.port].
    destruct ou as [u|], op as [p|], on as [n|], oh as [h|], oq as [q|];
      cbn [Db.first_raised];
      (split; [intros text H; try discriminate; injection H as <-; reflexivity
              | intros H; try discriminate]).
    eexists _, u, p, n, h, q. repeat (split; [reflexivity |]). split; reflexivity.
  - split; [intros text H; injection H as <-; reflexivity | discriminate].
Qed.

Lemma db_url_needs_every_attribute_witness :
  Db.generate_db_url (Db.Value Db.sample_without_host) =
    (None, [Db.Warning ("Could not generate DB URL for POSTGRES: " +:+ "host")]).
Proof.
  apply (db_url_needs_every_attribute (Db.Value Db.sample_without_host)).
  reflexivity.
Defined.

(** * The policies of a constructed bot *)

(** The two configured API hosts get their policies on top of the table:
    the linx host is allowed twenty calls a minute whatever the table or
    the dumpdbg setting say of it, the dumpdbg host one call a minute
    unless it is the linx host, and every other host has the policy of the
    table, or none. *)
Theorem configured_hosts_override_table (cfg : file_config) :
  (forall u, linx cfg = Some u ->
     rate_limits (DataBot_init cfg) !! Url.netloc u = Some (20%nat, 60%Q)) /\
  (forall u, dumpdbg cfg = Some u ->
     (forall v, linx cfg = Some v -> Url.netloc v <> Url.netloc u) ->
     rate_limits (DataBot_init cfg) !! Url.netloc u = Some (1%nat, 60%Q)) /\
  (forall h,
     (forall v, linx cfg = Some v -> Url.netloc v <> h) ->
     (forall u, dumpdbg cfg = Some u -> Url.netloc u <> h) ->
     rate_limits (DataBot_init cfg) !! h = dict_literal rate_limit_table !! h).
Proof.
  unfold DataBot_init. cbn [rate_limits].
  split; [| split].
  - intros u ->. apply lookup_insert_eq.
  - intros u -> Hne. destruct (linx cfg) as [v|].
    + rewrite lookup_insert_ne by (apply Hne; reflexivity). apply lookup_insert_eq.
    + apply lookup_insert_eq.
  - intros h Hl Hd. destruct (linx cfg) as [v|], (dumpdbg cfg) as [u|];
      rewrite ?lookup_insert_ne by auto; reflexivity.
Qed.

Lemma configured_hosts_override_table_witness :
  rate_limits
    (DataBot_init {| http_cache_length := 10; http_cache_seconds := 600;
                     dumpdbg := Some "https://api.giphy.com/upload";
                     linx := Some "https://api.giphy.com/linx" |})
    !! "api.giphy.com" = Some (20%nat, 60%Q).
Proof.
  destruct (configured_hosts_override_table
              {| http_cache_length := 10; http_cache_seconds := 600;
                 dumpdbg := Some "https://api.giphy.com/upload";
                 linx := Some "https://api.giphy.com/linx" |}) as [H _].
  exact (H "https://api.giphy.com/linx" eq_refl).
Defined.

(** * The image URL of the giphy plugin *)

Lemma prefix_append (p b : string) : String.prefix p (p +:+ b) = true.
Proof.
  induction p as [|c p IH]; [destruct b; reflexivity |].
  rewrite append_cons. simpl. destruct (ascii_dec c c); [exact IH | contradiction].
Qed.

Lemma substring_append (a b : string) :
  String.substring 0 (String.length a) (a +:+ b) = a.
Proof.
  induction a as [|c a IH]; [destruct b; reflexivity |].
  rewrite append_cons. simpl. now rewrite IH.
Qed.

(** Up to a character that is not in [a], the search goes through [a]. *)
Lemma find_from_skip (c : ascii) (sub a b : string) (i : Z) :
  PyStr.contains c a = false ->
  Giphy.find_from (String c sub) (a +:+ String c sub +:+ b) i =
    (i + Z.of_nat (String.length a))%Z.
Proof.
  revert i. induction a as [|x a IH]; intros i Hc.
  - change ("" +:+ String c sub +:+ b) with (String c sub +:+ b).
    unfold Giphy.find_from. destruct (String c sub +:+ b) eqn:E;
      pose proof (prefix_append (String c sub) b) as Hp; rewrite E in Hp; rewrite Hp;
      simpl; lia.
  - simpl in Hc. apply orb_false_iff in Hc as [Hx Hc].
    rewrite append_cons. cbn [Giphy.find_from String.prefix].
    destruct (ascii_dec c x) as [-> | Hne].
    + rewrite Ascii.eqb_refl in Hx. discriminate.
    + rewrite IH by assumption. cbn [String.length]. lia.
Qed.

(** When the text [?cid=] occurs in the URL after a part without question
    mark, [parse_url] returns that part. *)
Theorem parse_url_strips_cid (a b : string) :
  PyStr.contains "?" a = false ->
  Giphy.parse_url (a +:+ "?cid=" +:+ b) = a.
Proof.
  intros Hc. unfold Giphy.parse_url, Giphy.find.
  rewrite (find_from_skip "?" "cid=" a b 0 Hc).
  unfold Giphy.slice_to.
  assert (String.length a <= String.length (a +:+ "?cid=" +:+ b))%nat as Hlen.
  { clear. induction a as [|c a IH]; [simpl; lia |]. rewrite append_cons. simpl. lia. }
  destruct (Z.ltb_spec (0 + Z.of_nat (String.length a)) 0) as [Hneg | _]; [lia |].
  rewrite Z.min_l by lia. rewrite Z.add_0_l, Nat2Z.id.
  apply substring_append.
Qed.

Lemma parse_url_strips_cid_witness :
  Giphy.parse_url ("https://media.giphy.com/media/abc/giphy.gif" +:+ "?cid=" +:+ "123&rid=giphy.gif")
  = "https://media.giphy.com/media/abc/giphy.gif".
Proof.
  apply (parse_url_strips_cid "https://media.giphy.com/media/abc/giphy.gif" "123&rid=giphy.gif").
  reflexivity.
Defined.

Lemma prefix_occurs (p s : string) :
  String.prefix p s = true -> exists b, s = p +:+ b.
Proof.
  revert s. induction p as [|c p IH]; intros s H.
  - exists s. reflexivity.
  - destruct s as [|x s]; [discriminate |]. simpl in H.
    destruct (ascii_dec c x) as [-> | _]; [| discriminate].
    destruct (IH _ H) as [b ->]. exists b. reflexivity.
Qed.

Lemma find_from_absent (sub s : string) (i : Z) :
  (forall a b, s <> a +:+ sub +:+ b) -> Giphy.find_from sub s i = (-1)%Z.
Proof.
  revert i. induction s as [|x s IH]; intros i Hno.
  - cbn [Giphy.find_from]. destruct (String.prefix sub "") eqn:E; [| reflexivity].
    destruct (prefix_occurs _ _ E) as [b Hb]. exfalso. apply (Hno "" b). exact Hb.
  - cbn [Giphy.find_from]. destruct (String.prefix sub (String x s)) eqn:E.
    + destruct (prefix_occurs _ _ E) as [b Hb]. exfalso. apply (Hno "" b). exact Hb.
    + apply IH. intros a b ->. apply (Hno (String x a) b). reflexivity.
Qed.

(** When [?cid=] does not occur in the URL, [find] answers [-1] and the
    slice takes the URL without its last character. *)
Theorem parse_url_without_cid_drops_last (url : string) :
  (forall a b, url <> a +:+ "?cid=" +:+ b) ->
  Giphy.parse_url url = String.substring 0 (String.length url - 1) url.
Proof.
  intros Hno. unfold Giphy.parse_url, Giphy.find.
  rewrite (find_from_absent _ _ 0 Hno). unfold Giphy.slice_to.
  destruct (Z.ltb_spec (-1) 0) as [_ | Hge]; [| lia].
  f_equal. lia.
Qed.

Lemma parse_url_without_cid_drops_last_witness :
  Giphy.parse_url "https://giphy.com/a.gif" = "https://giphy.com/a.gi".
Proof.
  rewrite (parse_url_without_cid_drops_last "https://giphy.com/a.gif").
  - reflexivity.
  - intros a b H.
    assert (PyStr.contains "?" "https://giphy.com/a.gif" = true) as Hc.
    { rewrite H, !contains_append. simpl. now rewrite orb_true_r. }
    discriminate.
Defined.

(** * The modules of the plugin loader *)

Lemma basename_from_plain (acc s : string) :
  PyStr.contains "/" s = false -> PyStr.basename_from acc s = acc.
Proof.
  revert acc. induction s as [|x s IH]; intros acc H; [reflexivity |].
  simpl in *. apply orb_false_iff in H as [Hx Hs]. rewrite Hx. auto.
Qed.

Lemma basename_from_last (acc a n : string) :
  PyStr.contains "/" n = false ->
  PyStr.basename_from acc (a +:+ String "/" n) = n.
Proof.
  intros Hn. revert acc. induction a as [|x a IH]; intros acc.
  - change ("" +:+ String "/" n) with (String "/" n). simpl.
    now apply basename_from_plain.
  - rewrite append_cons. simpl. destruct (Ascii.eqb x "/"); apply IH.
Qed.

Lemma append_assoc (a b c : string) : (a +:+ b) +:+ c = a +:+ (b +:+ c).
Proof.
  induction a as [|x a IH]; [reflexivity |].
  rewrite !append_cons. now rewrite IH.
Qed.

(** The base name of the path of a directory entry is the entry's name. *)
Lemma basename_of_plugin (dir n : string) :
  PyStr.contains "/" n = false ->
  PyStr.basename (dir +:+ "/plugins/" +:+ n) = n.
Proof.
  intros Hn. unfold PyStr.basename.
  replace (dir +:+ "/plugins/" +:+ n) with ((dir +:+ "/plugins") +:+ String "/" n).
  - now apply basename_from_last.
  - rewrite append_assoc. reflexivity.
Qed.

Lemma substring_full (s : string) : String.substring 0 (String.length s) s = s.
Proof. induction s as [|c s IH]; simpl; congruence. Qed.

Lemma substring_split (s : string) :
  forall k, (k <= String.length s)%nat ->
    String.substring 0 k s +:+ String.substring k (String.length s - k) s = s.
Proof.
  induction s as [|c s IH]; intros k Hk.
  - destruct k; [reflexivity | simpl in Hk; lia].
  - destruct k as [|k].
    + rewrite Nat.sub_0_r, substring_full. reflexivity.
    + simpl in Hk. cbn [String.substring String.length Nat.sub].
      rewrite append_cons. f_equal. apply IH. lia.
Qed.

(** Taking the extension off a file name and putting it back gives the
    file name. *)
Lemma stem_py (n : string) :
  PyStr.endswith ".py" n = true -> PyStr.drop_last3 n +:+ ".py" = n.
Proof.
  unfold PyStr.endswith, PyStr.drop_last3. intros H.
  apply andb_true_iff in H as [Hlen Hsuf].
  apply Nat.leb_le in Hlen. apply String.eqb_eq in Hsuf.
  simpl String.length in *.
  pose proof (substring_split n (String.length n - 3) ltac:(lia)) as Hs.
  replace (String.length n - (String.length n - 3))%nat with 3%nat in Hs by lia.
  now rewrite Hsuf in Hs.
Qed.

(** The module names that the loader computes are those of the regular
    files of the plugins directory whose name ends in [.py], is not hidden,
    and whose path does not end in [__init__.py]: [plugins.] followed by the
    file name without its extension. *)
Lemma module_names_spec (fs : Plugin.filesystem) (m : string) :
  (forall e, In e (Plugin.plugins_dir fs) -> PyStr.contains "/" e.1 = false) ->
  (In m (Plugin.module_names (Plugin.glob_py fs)) <->
   exists n,
     In (n, true) (Plugin.plugins_dir fs) /\
     PyStr.endswith ".py" n = true /\
     PyStr.startswith "." n = false /\
     PyStr.endswith "__init__.py" (Plugin.here fs +:+ "/plugins/" +:+ n) = false /\
     m = "plugins." +:+ PyStr.drop_last3 n /\
     PyStr.drop_last3 n +:+ ".py" = n).
Proof.
  intros Hnames. unfold Plugin.module_names, Plugin.glob_py.
  rewrite in_map_iff. split.
  - intros ([path isf] & <- & Hin).
    apply List.filter_In in Hin as [Hin Hkeep].
    apply in_map_iff in Hin as ([n f] & Heq & Hin).
    apply List.filter_In in Hin as [Hin Hpy].
    cbn [fst snd] in *. injection Heq as <- <-.
    apply andb_true_iff in Hkeep as [-> Hinit].
    apply andb_true_iff in Hpy as [Hpy Hhid].
    apply negb_true_iff in Hinit, Hhid.
    exists n. repeat split; try assumption.
    + now rewrite (basename_of_plugin _ _ (Hnames _ Hin)).
    + now apply stem_py.
  - intros (n & Hin & Hpy & Hhid & Hinit & -> & _).
    exists (Plugin.here fs +:+ "/plugins/" +:+ n, true). cbn [fst snd]. split.
    + now rewrite (basename_of_plugin _ _ (Hnames _ Hin)).
    + apply List.filter_In. split.
      * apply in_map_iff. exists (n, true). split; [reflexivity |].
        apply List.filter_In. split; [assumption |]. cbn [fst].
        now rewrite Hpy, Hhid.
      * cbn [fst snd]. now rewrite Hinit.
Qed.

(** Whatever [load_plugins] registers comes from a plugin file: each
    object it adds to the commands of the bot is a binding, under a name
    that passes the test, of the module [plugins.] followed by the stem of a
    regular file of the plugins directory whose name ends in [.py], is not
    hidden, and whose path does not end in [__init__.py]. When every import
    succeeds and the bot takes each binding, every such binding of every
    such file is registered. *)
Theorem registered_objects_come_from_plugin_files (fs : Plugin.filesystem)
    (import_module : string -> option (list (string * Plugin.pyobj))) (bot : Plugin.Bot) :
  (forall e, In e (Plugin.plugins_dir fs) -> PyStr.contains "/" e.1 = false) ->
  let names := Plugin.module_names (Plugin.glob_py fs) in
  let loaded := Plugin.load_plugins fs import_module bot in
  let from_plugin_file (o : Plugin.pyobj) :=
    exists n dict name,
      In (n, true) (Plugin.plugins_dir fs) /\
      PyStr.endswith ".py" n = true /\
      PyStr.startswith "." n = false /\
      PyStr.endswith "__init__.py" (Plugin.here fs +:+ "/plugins/" +:+ n) = false /\
      PyStr.drop_last3 n +:+ ".py" = n /\
      import_module ("plugins." +:+ PyStr.drop_last3 n) = Some dict /\
      In (name, o) dict /\
      Plugin.name_ok name = true in
  (forall o, In o (Plugin.commands loaded.1) ->
             In o (Plugin.commands bot) \/ from_plugin_file o) /\
  (Forall (fun m => is_Some (import_module m)) names ->
   Forall (fun o => Plugin.accepts bot o = true) (Plugin.qualifying import_module names) ->
   loaded.2 = None /\
   forall o, from_plugin_file o -> In o (Plugin.commands loaded.1)).
Proof.
  intros Hnames names loaded from_plugin_file. subst loaded.
  unfold Plugin.load_plugins. cbv zeta. fold names.
  destruct (load_modules_spec import_module names bot)
    as (done & rest & Hq & Hb & _ & Ho).
  assert (forall o, In o (Plugin.qualifying import_module names) <-> from_plugin_file o)
    as Hqual.
  { intros o. unfold Plugin.qualifying. rewrite in_flat_map. split.
    - intros (m & Hm & Hin).
      apply (module_names_spec fs m Hnames) in Hm
        as (n & Hn & Hpy & Hhid & Hinit & -> & Hstem).
      apply in_map_iff in Hin as ([name o'] & Heq & Hin). cbn [snd] in Heq. subst o'.
      apply List.filter_In in Hin as [Hin Hok]. cbn [fst] in Hok.
      destruct (import_module ("plugins." +:+ PyStr.drop_last3 n)) as [dict|] eqn:Himp;
        [| contradiction].
      exists n, dict, name. auto 10.
    - intros (n & dict & name & Hn & Hpy & Hhid & Hinit & Hstem & Himp & Hin & Hok).
      exists ("plugins." +:+ PyStr.drop_last3 n). split.
      + apply (module_names_spec fs _ Hnames). exists n. auto 10.
      + rewrite Himp. apply in_map_iff. exists (name, o). split; [reflexivity |].
        apply List.filter_In. auto. }
  split.
  - intros o Hin. rewrite Hb in Hin. cbn [Plugin.commands] in Hin.
    apply in_app_or in Hin as [Hin | Hin]; [auto |]. right.
    apply Hqual. rewrite Hq. apply in_or_app. auto.
  - intros Himp Hacc.
    destruct (Plugin.load_modules import_module bot names).2 as [e|] eqn:He.
    + exfalso. destruct Ho as [(_ & o & r' & -> & Hrej) | (_ & m & Hin & Hnone)].
      * rewrite Hq in Hacc. apply Forall_app in Hacc as [_ Hacc].
        apply Forall_cons_iff in Hacc as [Hacc _]. congruence.
      * rewrite List.Forall_forall in Himp. destruct (Himp _ Hin) as [x Hx]. congruence.
    + subst rest. rewrite app_nil_r in Hq. split; [reflexivity |].
      intros o Ho'. rewrite Hb. cbn [Plugin.commands].
      apply in_or_app. right. rewrite <- Hq. now apply Hqual.
Qed.

Lemma registered_objects_come_from_plugin_files_witness :
  (Plugin.load_plugins Plugin.example_fs Plugin.example_import Plugin.lenient_bot).2 = None.
Proof.
  assert (forall e, In e (Plugin.plugins_dir Plugin.example_fs) ->
                    PyStr.contains "/" e.1 = false) as Hnames.
  { intros e He. simpl in He.
    repeat (destruct He as [<- | He]; [reflexivity |]). contradiction. }
  assert (Forall (fun m => is_Some (Plugin.example_import m))
            (Plugin.module_names (Plugin.glob_py Plugin.example_fs))) as Himp.
  { repeat constructor. vm_compute. eauto. }
  assert (Forall (fun o => Plugin.accepts Plugin.lenient_bot o = true)
            (Plugin.qualifying Plugin.example_import
               (Plugin.module_names (Plugin.glob_py Plugin.example_fs)))) as Hacc.
  { vm_compute. repeat constructor. }
  destruct (registered_objects_come_from_plugin_files Plugin.example_fs
              Plugin.example_import Plugin.lenient_bot Hnames) as [_ H].
  destruct (H Himp Hacc) as [Hnone _]. exact Hnone.
Defined.

(** A binding whose name starts with two underscores, or is [commands], is
    never handed to the bot: whatever the loader registers comes from a
    binding of an imported module with another name. *)
Theorem reserved_names_are_not_registered (fs : Plugin.filesystem)
    (import_module : string -> option (list (string * Plugin.pyobj)))
    (bot : Plugin.Bot) (o : Plugin.pyobj) :
  In o (Plugin.commands (Plugin.load_plugins fs import_module bot).1) ->
  In o (Plugin.commands bot) \/
  exists m dict name,
    In m (Plugin.module_names (Plugin.glob_py fs)) /\
    import_module m = Some dict /\
    In (name, o) dict /\
    PyStr.startswith "__" name = false /\
    name <> "commands".
Proof.
  unfold Plugin.load_plugins. cbv zeta.
  destruct (load_modules_spec import_module
              (Plugin.module_names (Plugin.glob_py fs)) bot)
    as (done & rest & Hq & Hb & _).
  rewrite Hb. cbn [Plugin.commands]. intros Hin.
  apply in_app_or in Hin as [Hin | Hin]; [auto |]. right.
  assert (In o (Plugin.qualifying import_module
                  (Plugin.module_names (Plugin.glob_py fs)))) as Hqo
    by (rewrite Hq; apply in_or_app; auto).
  unfold Plugin.qualifying in Hqo. apply in_flat_map in Hqo as (m & Hm & Ho).
  apply in_map_iff in Ho as ([name o'] & Heq & Ho). cbn [snd] in Heq. subst o'.
  apply List.filter_In in Ho as [Ho Hok]. cbn [fst] in Hok.
  destruct (import_module m) as [dict|] eqn:Himp; [| contradiction].
  exists m, dict, name. unfold Plugin.name_ok in Hok.
  apply andb_true_iff in Hok as [H1 H2].
  apply negb_true_iff in H1, H2. apply String.eqb_neq in H2. auto.
Qed.

Lemma reserved_names_are_not_registered_witness :
  In {| Plugin.origin := "plugins.giphy.setup"; Plugin.obj_kind := Plugin.KFunction |}
     (Plugin.commands Plugin.lenient_bot) \/
  exists m dict name,
    In m (Plugin.module_names (Plugin.glob_py Plugin.example_fs)) /\
    Plugin.example_import m = Some dict /\
    In (name, {| Plugin.origin := "plugins.giphy.setup"; Plugin.obj_kind := Plugin.KFunction |})
       dict /\
    PyStr.startswith "__" name = false /\
    name <> "commands".
Proof.
  apply (reserved_names_are_not_registered Plugin.example_fs Plugin.example_import
           Plugin.lenient_bot).
  vm_compute. right. right. right. left. reflexivity.
Defined.

(** * The notes extension *)

Lemma insert_desc_In (x n : Who.UserNote) (l : list Who.UserNote) :
  In x (Who.insert_desc n l) <-> x = n \/ In x l.
Proof.
  induction l as [|m l IH]; simpl.
  - intuition.
  - destruct (Qle_bool (Who.updated m) (Who.updated n)); simpl; rewrite ?IH; intuition.
Qed.

Lemma order_desc_In (x : Who.UserNote) (l : list Who.UserNote) :
  In x (Who.order_desc l) <-> In x l.
Proof.
  induction l as [|m l IH]; simpl; [tauto |].
  rewrite insert_desc_In, IH. intuition.
Qed.

Lemma order_desc_nil (l : list Who.UserNote) : Who.order_desc l = [] -> l = [].
Proof.
  destruct l as [|m l]; [reflexivity |]. intros H.
  assert (In m (Who.order_desc (m :: l))) as Hin by (apply order_desc_In; left; reflexivity).
  rewrite H in Hin. contradiction.
Qed.

(** The notes that [get_notes] returns are the rows of the user in the
    guild, all of them. *)
Lemma get_notes_In (db : list Who.UserNote) (u : Who.Member) (g : Who.Guild) (n : Who.UserNote) :
  In n (Who.get_notes db u g) <->
  In n db /\ Who.user_id n = pretty (Who.member_id u) /\
  Who.guild_id n = pretty (Who.guild_snowflake g).
Proof.
  unfold Who.get_notes. rewrite order_desc_In, List.filter_In, andb_true_iff.
  rewrite !String.eqb_eq. tauto.
Qed.

Lemma utils_get_some (roles : list Who.Role) (name : string) (r : Who.Role) :
  Who.utils_get roles name = Some r -> In r roles /\ Who.role_name r = name.
Proof.
  unfold Who.utils_get. intros H. apply List.find_some in H as [Hin Hn].
  apply String.eqb_eq in Hn. auto.
Qed.

Lemma NoDup_map_inj {A B : Type} (f : A -> B) (l : list A) (a b : A) :
  List.NoDup (map f l) -> In a l -> In b l -> f a = f b -> a = b.
Proof.
  induction l as [|x l IH]; simpl; [contradiction |].
  intros Hnd Ha Hb Hf. apply List.NoDup_cons_iff in Hnd as [Hx Hnd].
  destruct Ha as [-> | Ha], Hb as [-> | Hb]; auto.
  - exfalso. apply Hx. rewrite Hf. now apply in_map.
  - exfalso. apply Hx. rewrite <- Hf. now apply in_map.
Qed.

Lemma utils_get_unique (roles : list Who.Role) (r : Who.Role) :
  List.NoDup (map Who.role_name roles) -> In r roles ->
  Who.utils_get roles (Who.role_name r) = Some r.
Proof.
  intros Hnd Hin. unfold Who.utils_get.
  destruct (List.find (fun x => String.eqb (Who.role_name x) (Who.role_name r)) roles)
    as [r'|] eqn:E.
  - apply List.find_some in E as [Hin' Hn]. apply String.eqb_eq in Hn.
    f_equal. eapply NoDup_map_inj; eauto.
  - exfalso. pose proof (List.find_none _ _ E r Hin) as Hf.
    simpl in Hf. now rewrite String.eqb_refl in Hf.
Qed.

Lemma role_in_spec (r : Who.Role) (l : list Who.Role) :
  Who.role_in r l = true <-> exists x, In x l /\ Who.role_id x = Who.role_id r.
Proof.
  unfold Who.role_in. rewrite existsb_exists.
  split; intros (x & Hin & Hx); exists x; (split; [assumption |]);
    [now apply Z.eqb_eq | now apply Z.eqb_eq].
Qed.

(** Who may read notes. Without reader roles in the configuration nobody
    may: a denial is sent and [CommandError] raised for every invoker. With
    reader roles, in a guild whose roles have distinct names and ids, the
    invoker may read exactly when one of their roles is named in the
    list. *)
Theorem reader_has_configured_role (cfg : Who.config) (guild : Who.Guild) (user : Who.Member) :
  (Who.note_readers cfg = [] ->
     exists message, Who.is_reader cfg guild user =
                       (Who.CommandError message, [Who.DenyEmbed message])) /\
  (Who.note_readers cfg <> [] ->
   List.NoDup (map Who.role_name (Who.guild_roles guild)) ->
   List.NoDup (map Who.role_id (Who.guild_roles guild)) ->
   (forall r, In r (Who.member_roles user) -> In r (Who.guild_roles guild)) ->
   exists b,
     Who.is_reader cfg guild user = (Who.Returns b, []) /\
     (b = true <->
      exists r, In r (Who.member_roles user) /\ In (Who.role_name r) (Who.note_readers cfg))).
Proof.
  unfold Who.is_reader. split.
  - intros ->. eauto.
  - intros Hne Hnames Hids Hsub.
    destruct (Who.note_readers cfg) as [|name0 names0] eqn:Hr; [congruence |].
    rewrite <- Hr. clear Hr Hne. eexists. split; [reflexivity |].
    rewrite existsb_exists. split.
    + intros ([r'|] & Hin & Hhas); [| discriminate].
      apply in_map_iff in Hin as (name & Hget & Hname).
      apply utils_get_some in Hget as [Hg <-].
      apply role_in_spec in Hhas as (r & Hr & Hid).
      exists r. split; [assumption |].
      assert (r = r') as -> by (eapply NoDup_map_inj; eauto).
      assumption.
    + intros (r & Hr & Hname). exists (Some r). split.
      * apply in_map_iff. exists (Who.role_name r). split; [| assumption].
        apply utils_get_unique; auto.
      * apply role_in_spec. eauto.
Qed.

Lemma reader_has_configured_role_witness :
  exists b,
    Who.is_reader Who.sample_config Who.sample_guild Who.alice = (Who.Returns b, []) /\
    (b = true <->
     exists r, In r (Who.member_roles Who.alice) /\
               In (Who.role_name r) (Who.note_readers Who.sample_config)).
Proof.
  destruct (reader_has_configured_role Who.sample_config Who.sample_guild Who.alice)
    as [_ H].
  apply H.
  - discriminate.
  - repeat constructor; simpl; intuition discriminate.
  - repeat constructor; simpl; intuition discriminate.
  - intros r [<- | []]. left. reflexivity.
Defined.


Lemma bypass_role_none (guild : Who.Guild) (user : Who.Member) (names : list string) :
  (forall name r, In name names ->
                  Who.utils_get (Who.guild_roles guild) name = Some r ->
                  Who.role_in r (Who.member_roles user) = false) ->
  Who.bypass_role guild user names = None.
Proof.
  induction names as [|n names IH]; intros H; [reflexivity |].
  simpl. destruct (Who.utils_get (Who.guild_roles guild) n) as [r'|] eqn:E.
  - rewrite (H n r' (or_introl eq_refl) E). apply IH. intros name r Hin. apply H. now right.
  - apply IH. intros name r Hin. apply H. now right.
Qed.



Lemma fresh_pk (db : list Who.UserNote) (n : Who.UserNote) :
  In n db -> (Who.pk n <= fold_right Nat.max 0%nat (map Who.pk db))%nat.
Proof.
  induction db as [|m db IH]; [contradiction |].
  simpl. intros [-> | Hin]; [lia |]. specialize (IH Hin). lia.
Qed.

Lemma filter_none {A : Type} (f : A -> bool) (l : list A) :
  (forall x, In x l -> f x = false) -> List.filter f l = [].
Proof.
  induction l as [|a l IH]; intros H; [reflexivity |].
  simpl. rewrite (H a (or_introl eq_refl)). apply IH. intros x Hx. apply H. now right.
Qed.

Lemma filter_all {A : Type} (f : A -> bool) (l : list A) :
  (forall x, In x l -> f x = true) -> List.filter f l = l.
Proof.
  induction l as [|a l IH]; intros H; [reflexivity |].
  simpl. rewrite (H a (or_introl eq_refl)). f_equal. apply IH. intros x Hx. apply H. now right.
Qed.

(** Otherwise the note is created: one row is added, under a primary key
    that no row has, with the ids of the user, the guild and the invoker and
    with the text; the user gets the note role when the guild has it; the
    notes of the user now hold the new row, and the notes of every other
    user or guild are what they were. *)
Theorem set_note_creates_one_row (cfg : Who.config) (guild : Who.Guild)
    (invoker user : Who.Member) (text : string) (now : Q) (db : list Who.UserNote) :
  Who.member_id invoker <> Who.member_id user ->
  (forall name r, In name (Who.note_bypass cfg) ->
                  Who.utils_get (Who.guild_roles guild) name = Some r ->
                  Who.role_in r (Who.member_roles user) = false) ->
  exists note message,
    Who.set_note cfg guild invoker user text now db =
      (db ++ [note],
       match Who.note_role_of cfg guild with
       | Some role => Who.add_roles user role
       | None => user
       end,
       [Who.ConfirmEmbed message]) /\
    Who.user_id note = pretty (Who.member_id user) /\
    Who.guild_id note = pretty (Who.guild_snowflake guild) /\
    Who.author_id note = pretty (Who.member_id invoker) /\
    Who.body note = text /\
    (forall n, In n db -> Who.pk n <> Who.pk note) /\
    In note (Who.get_notes (db ++ [note]) user guild) /\
    (forall u g,
        (Who.member_id u, Who.guild_snowflake g) <>
          (Who.member_id user, Who.guild_snowflake guild) ->
        Who.get_notes (db ++ [note]) u g = Who.get_notes db u g).
Proof.
  intros Hne Hby. unfold Who.set_note.
  destruct (Z.eqb_spec (Who.member_id invoker) (Who.member_id user)) as [He | _];
    [contradiction |].
  rewrite (bypass_role_none _ _ _ Hby). unfold Who.create. cbn [Who.user_id Who.guild_id
    Who.author_id Who.body Who.updated].
  destruct (Who.note_role_of cfg guild) as [role|];
    (eexists; eexists; split; [reflexivity |];
     cbn [Who.user_id Who.guild_id Who.author_id Who.body Who.updated Who.pk];
     repeat (split; [reflexivity |]); split; [| split];
     [ intros n Hin; pose proof (fresh_pk db n Hin); lia
     | apply get_notes_In; split; [apply in_or_app; right; left; reflexivity |];
       split; reflexivity
     | intros u g Hug; unfold Who.get_notes; rewrite List.filter_app; simpl;
       destruct (String.eqb_spec (pretty (Who.member_id user)) (pretty (Who.member_id u)))
         as [Hu | _]; simpl;
       [ destruct (String.eqb_spec (pretty (Who.guild_snowflake guild))
                     (pretty (Who.guild_snowflake g))) as [Hg | _]; simpl;
         [ exfalso; apply Hug; f_equal; symmetry; eapply pretty_Z_inj; eassumption
         | now rewrite app_nil_r ]
       | now rewrite app_nil_r ] ]).
Qed.

Lemma set_note_creates_one_row_witness :
  exists note message,
    Who.set_note Who.sample_config Who.sample_guild Who.alice Who.bob "spams" 5 [] =
      ([] ++ [note], Who.add_roles Who.bob Who.noted, [Who.ConfirmEmbed message]) /\
    Who.body note = "spams".
Proof.
  destruct (set_note_creates_one_row Who.sample_config Who.sample_guild Who.alice Who.bob
              "spams" 5 [])
    as (note & message & Hset & _ & _ & _ & Hbody & _).
  - discriminate.
  - intros name r [<- | []] Hget. injection Hget as <-. reflexivity.
  - exists note, message. split; [exact Hset | exact Hbody].
Defined.

Lemma fold_delete_In (notes db : list Who.UserNote) (m : Who.UserNote) :
  In m (fold_left Who.delete notes db) <->
  In m db /\ forall n, In n notes -> Who.pk m <> Who.pk n.
Proof.
  revert db. induction notes as [|x notes IH]; intros db; simpl.
  - firstorder.
  - rewrite IH. unfold Who.delete. rewrite List.filter_In, negb_true_iff, Nat.eqb_neq.
    split.
    + intros [[Hin Hx] Hrest]. split; [assumption |].
      intros n [<- | Hn]; auto.
    + intros [Hin Hall]. split; [split |]; auto.
Qed.

(** Notes are deleted on confirmation only. When the user has no notes,
    or the confirmation is refused or times out, the table and the member
    stay as they are. On confirmation the user has no notes left, no row
    is added, and, primary keys being distinct, every row of another user
    or guild stays. *)
Theorem clear_notes_needs_confirmation (cfg : Who.config) (guild : Who.Guild)
    (user : Who.Member) (answer : Who.ConfirmResponse) (db : list Who.UserNote) :
  let cleared := Who.clear_notes cfg guild user answer db in
  (Who.get_notes db user guild = [] \/ answer <> Who.CONFIRMED ->
     cleared.1.1 = db /\ cleared.1.2 = user) /\
  (Who.get_notes db user guild <> [] -> answer = Who.CONFIRMED ->
     Who.get_notes cleared.1.1 user guild = [] /\
     (forall n, In n cleared.1.1 -> In n db) /\
     (List.NoDup (map Who.pk db) ->
      forall n, In n db ->
        ~ (Who.user_id n = pretty (Who.member_id user) /\
           Who.guild_id n = pretty (Who.guild_snowflake guild)) ->
        In n cleared.1.1)).
Proof.
  intros cleared. subst cleared. unfold Who.clear_notes. split.
  - intros H. destruct (Who.get_notes db user guild) as [|n notes]; [auto |].
    destruct H as [H | H]; [discriminate |].
    destruct answer; [contradiction | auto | auto].
  - intros Hne ->. destruct (Who.get_notes db user guild) as [|n0 notes] eqn:Hnotes;
      [contradiction |].
    cbn [fst snd]. rewrite <- Hnotes. clear Hne. split; [| split].
    + destruct (Who.get_notes (fold_left Who.delete (Who.get_notes db user guild) db)
                  user guild) as [|m rest] eqn:E; [reflexivity |].
      exfalso.
      assert (In m (Who.get_notes (fold_left Who.delete (Who.get_notes db user guild) db)
                      user guild)) as Hm by (rewrite E; left; reflexivity).
      apply get_notes_In in Hm as (Hin & Hu & Hg).
      apply fold_delete_In in Hin as [Hin Hpk].
      apply (Hpk m); [| reflexivity]. apply get_notes_In. auto.
    + intros n Hin. apply fold_delete_In in Hin. tauto.
    + intros Hnd n Hin Hother. apply fold_delete_In. split; [assumption |].
      intros m Hm Hpk. apply get_notes_In in Hm as (Hmdb & Hu & Hg).
      assert (n = m) as -> by (eapply NoDup_map_inj; eauto).
      auto.
Qed.

Lemma clear_notes_needs_confirmation_witness :
  (Who.clear_notes Who.sample_config Who.sample_guild Who.bob Who.TIMEOUT
     (Who.set_note Who.sample_config Who.sample_guild Who.alice Who.bob "spams" 5 []).1.1).1.1 =
    (Who.set_note Who.sample_config Who.sample_guild Who.alice Who.bob "spams" 5 []).1.1.
Proof.
  apply (clear_notes_needs_confirmation Who.sample_config Who.sample_guild Who.bob
           Who.TIMEOUT).
  right. discriminate.
Defined.

Lemma role_in_add (m : Who.Member) (role : Who.Role) :
  Who.role_in role (Who.member_roles (Who.add_roles m role)) = true.
Proof.
  unfold Who.add_roles. cbn [Who.member_roles].
  destruct (Who.role_in role (Who.member_roles m)) eqn:E; [exact E |].
  unfold Who.role_in. rewrite existsb_app. simpl.
  rewrite Z.eqb_refl. now rewrite orb_true_r.
Qed.

Lemma remove_add (m : Who.Member) (role : Who.Role) :
  Who.role_in role (Who.member_roles m) = false ->
  Who.remove_roles (Who.add_roles m role) role = m.
Proof.
  intros Hno. unfold Who.remove_roles, Who.add_roles. cbn [Who.member_roles
    Who.member_id Who.member_name]. rewrite Hno.
  destruct m as [i nm roles]. cbn [Who.member_roles Who.member_id Who.member_name] in *.
  f_equal. rewrite List.filter_app. simpl. rewrite Z.eqb_refl. simpl.
  rewrite app_nil_r. apply filter_all. intros x Hx.
  apply negb_true_iff. destruct (Z.eqb_spec (Who.role_id x) (Who.role_id role)) as [He | _];
    [| reflexivity].
  exfalso. assert (Who.role_in role roles = true) as Ht by (apply role_in_spec; eauto).
  congruence.
Qed.

(** Setting a note and clearing the notes undo each other: for a user
    without notes and without the note role, a note that is set and then
    cleared, with the confirmation given, leaves the table and the member as
    they were before. *)
Theorem set_then_clear_restores (cfg : Who.config) (guild : Who.Guild)
    (invoker user : Who.Member) (text : string) (now : Q) (db : list Who.UserNote) :
  Who.member_id invoker <> Who.member_id user ->
  (forall name r, In name (Who.note_bypass cfg) ->
                  Who.utils_get (Who.guild_roles guild) name = Some r ->
                  Who.role_in r (Who.member_roles user) = false) ->
  Who.get_notes db user guild = [] ->
  (forall role, Who.note_role_of cfg guild = Some role ->
                Who.role_in role (Who.member_roles user) = false) ->
  let noted := Who.set_note cfg guild invoker user text now db in
  let cleared := Who.clear_notes cfg guild noted.1.2 Who.CONFIRMED noted.1.1 in
  cleared.1.1 = db /\ cleared.1.2 = user.
Proof.
  intros Hne Hby Hnone Hrole noted cleared. subst cleared noted.
  destruct (set_note_creates_one_row cfg guild invoker user text now db Hne Hby)
    as (note & message & -> & Hu & Hg & _ & _ & Hpk & _ & _).
  cbn [fst snd].
  set (user' := match Who.note_role_of cfg guild with
                | Some role => Who.add_roles user role
                | None => user
                end).
  assert (Who.member_id user' = Who.member_id user) as Hid
    by (subst user'; destruct (Who.note_role_of cfg guild); reflexivity).
  assert (Who.get_notes (db ++ [note]) user' guild = [note]) as Hnotes.
  { unfold Who.get_notes in *. rewrite Hid, List.filter_app.
    rewrite (order_desc_nil _ Hnone). simpl.
    rewrite Hu, Hg, !String.eqb_refl. reflexivity. }
  unfold Who.clear_notes. rewrite Hnotes. cbn [fst snd fold_left].
  split.
  - unfold Who.delete. rewrite List.filter_app. simpl. rewrite Nat.eqb_refl. simpl.
    rewrite app_nil_r. apply filter_all. intros n Hin.
    apply negb_true_iff, Nat.eqb_neq. auto.
  - subst user'. destruct (Who.note_role_of cfg guild) as [role|] eqn:Er; [| reflexivity].
    apply remove_add. now apply Hrole.
Qed.

Lemma set_then_clear_restores_witness :
  (Who.clear_notes Who.sample_config Who.sample_guild
     (Who.set_note Who.sample_config Who.sample_guild Who.alice Who.bob "spams" 5 []).1.2
     Who.CONFIRMED
     (Who.set_note Who.sample_config Who.sample_guild Who.alice Who.bob "spams" 5 []).1.1).1.1
  = [].
Proof.
  apply (set_then_clear_restores Who.sample_config Who.sample_guild Who.alice Who.bob
           "spams" 5 []).
  - discriminate.
  - intros name r [<- | []] Hget. injection Hget as <-. reflexivity.
  - reflexivity.
  - intros role Hrole. injection Hrole as <-. reflexivity.
Defined.

(** A noted user who rejoins gets the note role back: after a note is set
    for a user, [on_member_join] for a member of that id, whatever roles the
    member comes with, yields a member with the note role, provided the
    extension is enabled and the guild has the role. *)
Theorem noted_user_gets_role_on_join (cfg : Who.config) (guild : Who.Guild)
    (invoker user rejoined : Who.Member) (text : string) (now : Q)
    (db : list Who.UserNote) (role : Who.Role) :
  Who.member_id invoker <> Who.member_id user ->
  (forall name r, In name (Who.note_bypass cfg) ->
                  Who.utils_get (Who.guild_roles guild) name = Some r ->
                  Who.role_in r (Who.member_roles user) = false) ->
  Who.enabled cfg = true ->
  Who.note_role_of cfg guild = Some role ->
  Who.member_id rejoined = Who.member_id user ->
  let db' := (Who.set_note cfg guild invoker user text now db).1.1 in
  Who.role_in role (Who.member_roles (Who.on_member_join cfg guild rejoined db').1) = true.
Proof.
  intros Hne Hby Hen Hrole Hid db'. subst db'.
  destruct (set_note_creates_one_row cfg guild invoker user text now db Hne Hby)
    as (note & message & -> & _ & _ & _ & _ & _ & Hin & _).
  cbn [fst snd]. unfold Who.on_member_join. rewrite Hen, Hrole. cbn [negb].
  assert (Who.get_notes (db ++ [note]) rejoined guild =
          Who.get_notes (db ++ [note]) user guild) as ->
    by (unfold Who.get_notes; now rewrite Hid).
  destruct (Who.get_notes (db ++ [note]) user guild); [contradiction |].
  cbn [fst]. apply role_in_add.
Qed.

Lemma noted_user_gets_role_on_join_witness :
  Who.role_in Who.noted
    (Who.member_roles
       (Who.on_member_join Who.sample_config Who.sample_guild
          {| Who.member_id := 2; Who.member_name := "bob"; Who.member_roles := [] |}
          (Who.set_note Who.sample_config Who.sample_guild Who.alice Who.bob "spams" 5 []).1.1).1)
  = true.
Proof.
  apply (noted_user_gets_role_on_join Who.sample_config Who.sample_guild Who.alice Who.bob
           {| Who.member_id := 2; Who.member_name := "bob"; Who.member_roles := [] |}
           "spams" 5 [] Who.noted).
  - discriminate.
  - intros name r [<- | []] Hget. injection Hget as <-. reflexivity.
  - reflexivity.
  - reflexivity.
  - reflexivity.
Defined.
